(** * nmtpytorch.utils.nn: hidden-state extraction and masked mean pooling

    A shallow embedding of [src/nmtpytorch/utils/nn.py].  The two Python
    functions [get_rnn_hidden_state] and [mean_pool] are written in a small
    state-and-exception monad over a store of tensor objects; the tensor
    methods they call ([sum], [mean], [unsqueeze], true division with
    broadcasting) belong to the host tensor runtime and are modelled in
    module [Torch] on a row-major buffer with an explicit shape. *)

From Stdlib Require Import QArith Qcanon.
From stdpp Require Import base numbers list sorting gmap.

Local Open Scope nat_scope.

(** ** Tensor entries

    Entries are floating-point numbers in the program.  The model keeps the
    special values and drops rounding: an entry is an exact rational, an
    infinity or not-a-number, with the IEEE-754 rules for sums and
    quotients of those.  There is one zero, and it counts as positive. *)

Module Num.

Inductive fnum : Type :=
| Fin (q : Qc)
| PInf
| NInf
| NaN.

Definition zero : fnum := Fin 0%Qc.
Definition one : fnum := Fin 1%Qc.

Definition of_Z (z : Z) : fnum := Fin (Qc_of_Z z).
Definition of_nat (n : nat) : fnum := of_Z (Z.of_nat n).

Definition fadd (a b : fnum) : fnum :=
  match a, b with
  | NaN, _ | _, NaN => NaN
  | Fin p, Fin q => Fin (p + q)%Qc
  | PInf, NInf | NInf, PInf => NaN
  | PInf, _ | _, PInf => PInf
  | NInf, _ | _, NInf => NInf
  end.

Definition fdiv (a b : fnum) : fnum :=
  match a, b with
  | NaN, _ | _, NaN => NaN
  | Fin p, Fin q =>
      match (q ?= 0)%Qc with
      | Eq => match (p ?= 0)%Qc with
              | Eq => NaN
              | Lt => NInf
              | Gt => PInf
              end
      | _ => Fin (p / q)%Qc
      end
  | Fin _, _ => zero
  | PInf, Fin q => match (q ?= 0)%Qc with Lt => NInf | _ => PInf end
  | NInf, Fin q => match (q ?= 0)%Qc with Lt => PInf | _ => NInf end
  | _, _ => NaN
  end.

Definition is_finite (a : fnum) : bool :=
  match a with Fin _ => true | _ => false end.

(** Comparison with a literal, as [v == 1.0] on an entry. *)
Definition feqb (a b : fnum) : bool :=
  match a, b with
  | Fin p, Fin q => Qeq_bool p q
  | PInf, PInf | NInf, NInf => true
  | _, _ => false
  end.

End Num.
Export Num.

(** ** The tensor runtime *)

(** Exceptions of the Python program.  [DanglingRef] is not a Python
    exception: it marks a reference to an object the store does not hold,
    which no state of a running program has. *)
Inductive exn : Type :=
| TypeError
| ValueError
| AttributeError
| IndexError
| RuntimeError
| DanglingRef.

Module Torch.

(** A dense tensor: its sizes and its entries in row-major order. *)
Record tensor : Type := Tensor { shape : list nat; elems : list fnum }.

Definition numel (s : list nat) : nat := foldr Nat.mul 1 s.

Definition wf (t : tensor) : Prop := length (elems t) = numel (shape t).

Definition wfb (t : tensor) : bool := length (elems t) =? numel (shape t).

(** The [i]-th block of [k] consecutive entries. *)
Definition chunk (k i : nat) (xs : list fnum) : list fnum :=
  take k (drop (i * k) xs).

(** The sub-tensors along dimension 0, as [Tensor.unbind(0)]. *)
Definition unbind (t : tensor) : list tensor :=
  match shape t with
  | [] => []
  | n :: s => (λ i, Tensor s (chunk (numel s) i (elems t))) <$> seq 0 n
  end.

(** Entries of the reduction of a buffer of shape [s] along [dim]. *)
Fixpoint sum_along (dim : nat) (s : list nat) (xs : list fnum) : list fnum :=
  match s with
  | [] => xs
  | n :: s' =>
      let k := numel s' in
      let rows := (λ i, chunk k i xs) <$> seq 0 n in
      match dim with
      | 0 => foldl (zip_with fadd) (replicate k zero) rows
      | S d => mjoin (sum_along d s' <$> rows)
      end
  end.

(** [t.sum(dim)]: the dimension is removed; a 0-dimensional tensor
    accepts [dim = 0] and is returned as it is. *)
Definition sum (t : tensor) (dim : nat) : exn + tensor :=
  match shape t with
  | [] => if dim =? 0 then inr t else inl IndexError
  | _ :: _ =>
      if dim <? length (shape t)
      then inr (Tensor (delete dim (shape t))
                       (sum_along dim (shape t) (elems t)))
      else inl IndexError
  end.

(** [t.mean(dim)]: the sum along [dim] over the size of [dim]. *)
Definition mean (t : tensor) (dim : nat) : exn + tensor :=
  match sum t dim with
  | inl e => inl e
  | inr s =>
      let n := default 1 (shape t !! dim) in
      inr (Tensor (shape s) ((λ v, fdiv v (of_nat n)) <$> elems s))
  end.

(** [t.unsqueeze(dim)]: a dimension of size one inserted at [dim]. *)
Definition unsqueeze (t : tensor) (dim : nat) : exn + tensor :=
  if dim <=? length (shape t)
  then inr (Tensor (take dim (shape t) ++ 1 :: drop dim (shape t)) (elems t))
  else inl IndexError.

(** Broadcasting, on the shapes read from the trailing dimension. *)
Fixpoint broadcast_rev (ra rb : list nat) : option (list nat) :=
  match ra, rb with
  | [], r | r, [] => Some r
  | a :: ra', b :: rb' =>
      if a =? b then (a ::.) <$> broadcast_rev ra' rb'
      else if a =? 1 then (b ::.) <$> broadcast_rev ra' rb'
      else if b =? 1 then (a ::.) <$> broadcast_rev ra' rb'
      else None
  end.

Definition broadcast_shapes (sa sb : list nat) : option (list nat) :=
  reverse <$> broadcast_rev (reverse sa) (reverse sb).

(** Entries of a buffer of shape [s] expanded to shape [tgt] of the same
    rank: a dimension of size one is repeated. *)
Fixpoint expand (s tgt : list nat) (xs : list fnum) : list fnum :=
  match s, tgt with
  | n :: s', m :: tgt' =>
      let k := numel s' in
      mjoin ((λ i, expand s' tgt' (chunk k (if n =? m then i else 0) xs))
               <$> seq 0 m)
  | _, _ => xs
  end.

Definition expand_as (s tgt : list nat) (xs : list fnum) : list fnum :=
  expand (replicate (length tgt - length s) 1 ++ s) tgt xs.

(** [a / b] on two tensors. *)
Definition div (a b : tensor) : exn + tensor :=
  match broadcast_shapes (shape a) (shape b) with
  | None => inl RuntimeError
  | Some s =>
      inr (Tensor s (zip_with fdiv (expand_as (shape a) s (elems a))
                                   (expand_as (shape b) s (elems b))))
  end.

(** Reading one entry, as [t[i, j, ...].item()]. *)
Fixpoint ravel (s idx : list nat) (acc : nat) : nat :=
  match s, idx with
  | n :: s', i :: idx' => ravel s' idx' (acc * n + i)
  | _, _ => acc
  end.

Definition item (t : tensor) (idx : list nat) : fnum :=
  nth (ravel (shape t) idx 0) (elems t) NaN.

(** [torch.equal(a, b)]: the same sizes and the same entries. *)
Fixpoint all_equal (xs ys : list fnum) : bool :=
  match xs, ys with
  | [], [] => true
  | x :: xs', y :: ys' => feqb x y && all_equal xs' ys'
  | _, _ => false
  end.

Definition equal (a b : tensor) : bool :=
  bool_decide (shape a = shape b) && all_equal (elems a) (elems b).

End Torch.
Export Torch.

(** ** Python values and the store *)

Definition loc : Type := nat.

(** The values the two functions see: [None], a reference to a tensor
    object, or a tuple. *)
#[warnings="-register-all"]
Inductive val : Type :=
| VNone
| VTensor (l : loc)
| VTuple (vs : list val).

Abbreviation store := (gmap loc tensor).

Inductive outcome (A : Type) : Type :=
| Return (a : A)
| Raise (e : exn).
Arguments Return {A} a.
Arguments Raise {A} e.

(** A computation reads and extends the store and returns or raises. *)
Definition M (A : Type) : Type := store → outcome A * store.

Global Instance M_ret : MRet M := λ A a σ, (Return a, σ).

Global Instance M_bind : MBind M := λ A B k m σ,
  match m σ with
  | (Return a, σ') => k a σ'
  | (Raise e, σ') => (Raise e, σ')
  end.

Definition raise {A} (e : exn) : M A := λ σ, (Raise e, σ).

Definition lift {A} (r : exn + A) : M A :=
  match r with
  | inl e => raise e
  | inr a => mret a
  end.

(** A new tensor object, at a reference the store does not use. *)
Definition alloc (t : tensor) : M val :=
  λ σ, let l := fresh (dom σ) in (Return (VTensor l), <[l := t]> σ).

Definition deref (l : loc) : M tensor :=
  λ σ, match σ !! l with
       | Some t => (Return t, σ)
       | None => (Raise DanglingRef, σ)
       end.

Fixpoint alloc_all (ts : list tensor) : M (list val) :=
  match ts with
  | [] => mret []
  | t :: ts' => v ← alloc t ; vs ← alloc_all ts' ; mret (v :: vs)
  end.

(** ** Python operations used by the source *)

(** [isinstance(h, tuple)] *)
Definition isinstance_tuple (h : val) : bool :=
  match h with VTuple _ => true | _ => false end.

(** [h[i]]: an element of a tuple, or the [i]-th sub-tensor of a tensor. *)
Definition getitem (h : val) (i : nat) : M val :=
  match h with
  | VTuple vs =>
      match vs !! i with
      | Some v => mret v
      | None => raise IndexError
      end
  | VTensor l =>
      t ← deref l ;
      match unbind t !! i with
      | Some u => alloc u
      | None => raise IndexError
      end
  | VNone => raise TypeError
  end.

(** [a, b = v]: the iterable is read to its end, then its length is
    checked.  Iterating a tensor yields its sub-tensors along dimension 0;
    a 0-dimensional tensor is not iterable. *)
Definition iterate (v : val) : M (list val) :=
  match v with
  | VTuple vs => mret vs
  | VTensor l =>
      t ← deref l ;
      match shape t with
      | [] => raise TypeError
      | _ :: _ => alloc_all (unbind t)
      end
  | VNone => raise TypeError
  end.

Definition unpack2 (v : val) : M (val * val) :=
  vs ← iterate v ;
  match vs with
  | [a; b] => mret (a, b)
  | _ => raise ValueError
  end.

(** [v.f(dim)] for a tensor method [f]; [None] and tuples have no such
    attribute. *)
Definition call_method (f : tensor → nat → exn + tensor) (v : val) (dim : nat)
  : M val :=
  match v with
  | VTensor l => t ← deref l ; r ← lift (f t dim) ; alloc r
  | _ => raise AttributeError
  end.

(** [a / b] *)
Definition truediv (a b : val) : M val :=
  match a, b with
  | VTensor la, VTensor lb =>
      ta ← deref la ; tb ← deref lb ; r ← lift (div ta tb) ; alloc r
  | _, _ => raise TypeError
  end.

(** [v is not None] *)
Definition is_not_none (v : val) : bool :=
  match v with VNone => false | _ => true end.

(** ** The source functions *)

(** [return h if not isinstance(h, tuple) else h[0]] *)
Definition get_rnn_hidden_state (h : val) : M val :=
  if negb (isinstance_tuple h) then mret h else getitem h 0.

(** [[
    x, mask = data
    if mask is not None:
        return x.sum(0) / mask.sum(0).unsqueeze(1)
    else:
        return x.mean(0)
    ]] *)
Definition mean_pool (data : val) : M val :=
  '(x, mask) ← unpack2 data;
  if is_not_none mask then
    s ← call_method sum x 0 ;
    m ← call_method sum mask 0 ;
    m1 ← call_method unsqueeze m 1 ;
    truediv s m1
  else
    call_method mean x 0.

(** The tensor a computation returns, read from the store it leaves. *)
Definition result_of (r : outcome val * store) : option tensor :=
  match r with
  | (Return (VTensor l), σ) => σ !! l
  | _ => None
  end.

(** ** Vocabulary of the specification *)

(** The list [g 0; ...; g (n - 1)]. *)
Definition tabulate {A} (n : nat) (g : nat → A) : list A := g <$> seq 0 n.

(** The sum of a list of entries, added from the left. *)
Definition sum_of (vs : list fnum) : fnum := foldl fadd zero vs.

(** [sum_of [g 0; ...; g (n - 1)]], by recursion on [n]. *)
Fixpoint sum_over (n : nat) (g : nat → fnum) : fnum :=
  match n with
  | 0 => zero
  | S n' => fadd (sum_over n' g) (g n')
  end.

(** The arithmetic mean of a list of entries. *)
Definition mean_of (vs : list fnum) : fnum :=
  fdiv (sum_of vs) (of_nat (length vs)).

(** Feature [f] of batch element [b] at the time steps [0 .. T-1], and the
    mask of batch element [b] at those steps. *)
Definition feature_over_time (x : tensor) (T b f : nat) : list fnum :=
  (λ t, item x [t; b; f]) <$> seq 0 T.

Definition mask_over_time (mask : tensor) (T b : nat) : list fnum :=
  (λ t, item mask [t; b]) <$> seq 0 T.

(** The time steps of batch element [b] that the mask marks valid. *)
Definition valid_steps (mask : tensor) (T b : nat) : list nat :=
  List.filter (λ t, feqb (item mask [t; b]) one) (seq 0 T).

(** The mean of feature [f] of batch element [b] over its valid steps. *)
Definition masked_mean (x mask : tensor) (T b f : nat) : fnum :=
  mean_of ((λ t, item x [t; b; f]) <$> valid_steps mask T b).

(** Every entry of the mask is 0 or 1. *)
Definition is_mask (mask : tensor) : bool :=
  forallb (λ v, feqb v zero || feqb v one) (elems mask).

(** Every batch element has a valid time step. *)
Definition some_valid (mask : tensor) (T B : nat) : bool :=
  forallb (λ b, existsb (λ t, feqb (item mask [t; b]) one) (seq 0 T))
          (seq 0 B).

(** The sequence is zero at every position the mask does not mark valid. *)
Definition zero_padded (x mask : tensor) (T B F : nat) : bool :=
  forallb (λ t, forallb (λ b,
    feqb (item mask [t; b]) one
    || forallb (λ f, feqb (item x [t; b; f]) zero) (seq 0 F))
    (seq 0 B)) (seq 0 T).

(** [torch.ones(s)] *)
Definition ones (s : list nat) : tensor := Tensor s (replicate (numel s) one).

Definition has_shape (t : tensor) (s : list nat) : Prop :=
  shape t = s ∧ wf t.

Definition has_shapeb (t : tensor) (s : list nat) : bool :=
  bool_decide (shape t = s) && wfb t.

(** The mask argument of a valid call: [None], or a tensor of shape
    [T; B] that the store holds. *)
Definition mask_ok (σ : store) (mask : val) (T B : nat) : bool :=
  match mask with
  | VNone => true
  | VTensor l =>
      match σ !! l with
      | Some m => has_shapeb m [T; B]
      | None => false
      end
  | VTuple _ => false
  end.

Definition tensor_at (σ : store) (v : val) (t : tensor) : Prop :=
  match v with
  | VTensor l => σ !! l = Some t
  | _ => False
  end.

(** A computation returns a reference to the tensor [t] and leaves the
    objects of the store as they were. *)
Definition yields (m : M val) (σ : store) (t : tensor) : Prop :=
  ∃ v σ', m σ = (Return v, σ') ∧ σ ⊆ σ' ∧ tensor_at σ' v t.

(** A computation leaves every object of the store as it was. *)
Definition preserves {A} (m : M A) : Prop := ∀ σ, σ ⊆ (m σ).2.

(** *** The masked pool in the words of the specification

    Step 1 sums the sequence over the time axis, step 2 sums the mask over
    the time axis, step 3 reshapes the summed mask to a column, step 4
    divides every row of step 1 by its entry of the column. *)

Definition summed_sequence (T B F : nat) (x : tensor) : tensor :=
  Tensor [B; F]
    (tabulate (B * F)
       (λ j, sum_of (feature_over_time x T (j / F) (j mod F)))).

Definition summed_mask (T B : nat) (mask : tensor) : tensor :=
  Tensor [B] (tabulate B (λ b, sum_of (mask_over_time mask T b))).

Definition as_column (B : nat) (s : tensor) : tensor :=
  Tensor [B; 1] (elems s).

Definition divide_rows (B F : nat) (s c : tensor) : tensor :=
  Tensor [B; F]
    (tabulate (B * F) (λ j, fdiv (item s [j / F; j mod F]) (item c [j / F; 0]))).

Definition masked_pool_spec (T B F : nat) (x mask : tensor) : tensor :=
  divide_rows B F (summed_sequence T B F x) (as_column B (summed_mask T B mask)).

(** The unmasked pool in the words of the specification: the mean over
    the time axis, entry by entry. *)
Definition unmasked_pool_spec (T B F : nat) (x : tensor) : tensor :=
  Tensor [B; F]
    (tabulate (B * F)
       (λ j, mean_of (feature_over_time x T (j / F) (j mod F)))).

(** ** Sample inputs *)

Definition tensor_of (s : list nat) (zs : list Z) : tensor :=
  Tensor s (of_Z <$> zs).

(** The example of the specification: three time steps, the second one
    masked out and not zero. *)
Definition ex_x : tensor := tensor_of [3; 1; 1] [1; 2; 3]%Z.
Definition ex_mask : tensor := tensor_of [3; 1] [1; 0; 1]%Z.
Definition ex_store : store := {[ 1 := ex_x; 2 := ex_mask ]}.
Definition ex_data : val := VTuple [VTensor 1; VTensor 2].

(** The same with the masked step padded with zero. *)
Definition pad_x : tensor := tensor_of [3; 1; 1] [1; 0; 3]%Z.
Definition pad_store : store := {[ 1 := pad_x; 2 := ex_mask ]}.

(** Two batch elements with two features, and an all-ones mask. *)
Definition wide_x : tensor := tensor_of [2; 2; 2] [1; 2; 3; 4; 5; 6; 7; 8]%Z.
Definition ones_store : store := {[ 1 := wide_x; 2 := ones [2; 2] ]}.

(** A mask whose second batch element has no valid step. *)
Definition gap_mask : tensor := tensor_of [2; 2] [1; 0; 1; 0]%Z.
Definition gap_store : store := {[ 1 := wide_x; 2 := gap_mask ]}.

(** ** Further vocabulary *)

(** [isinstance(v, torch.Tensor)] *)
Definition is_tensor (v : val) : bool :=
  match v with VTensor _ => true | _ => false end.

(** A computation returns a tensor object [t] that the store did not hold
    before, and leaves the objects of the store as they were. *)
Definition yields_new (m : M val) (σ : store) (t : tensor) : Prop :=
  ∃ l σ', m σ = (Return (VTensor l), σ')
          ∧ σ ⊆ σ' ∧ σ !! l = None ∧ σ' !! l = Some t.








(** A mask with one batch column for a sequence of two batch elements,
    and a sequence of one batch element with a mask for two. *)
Definition column_mask : tensor := tensor_of [3; 1] [1; 1; 0]%Z.
Definition column_store : store := {[ 1 := wide_x; 2 := column_mask ]}.
Definition lone_x : tensor := tensor_of [2; 1; 2] [1; 2; 3; 4]%Z.
Definition lone_store : store := {[ 1 := lone_x; 2 := gap_mask ]}.

(** More sample inputs: a mask over three time steps for a sequence of
    two, a mask for three batch elements, a mask of rank one, and a
    reversal of two time steps. *)
Definition long_mask : tensor := tensor_of [3; 2] [1; 1; 1; 0; 0; 1]%Z.
Definition long_store : store := {[ 1 := wide_x; 2 := long_mask ]}.
Definition three_mask : tensor := tensor_of [2; 3] [1; 1; 1; 1; 1; 1]%Z.
Definition three_store : store := {[ 1 := wide_x; 2 := three_mask ]}.
Definition flat_mask : tensor := tensor_of [2] [1; 1]%Z.
Definition flat_store : store := {[ 1 := wide_x; 2 := flat_mask ]}.
Definition step_x : tensor := tensor_of [1; 2; 2] [1; 2; 3; 4]%Z.
Definition step_store : store := {[ 1 := step_x; 2 := ones [1; 2] ]}.
Definition none_x : tensor := Tensor [0; 2; 2] [].
Definition none_store : store := {[ 1 := none_x; 2 := Tensor [0; 2] [] ]}.

(** * Properties *)

(** ** Lists given by their entries *)

Section Tabulate.
Context {A : Type}.
Implicit Types (g h : nat → A).

Lemma length_tabulate n g : length (tabulate n g) = n.
Proof. unfold tabulate. by rewrite length_fmap, length_seq. Qed.

Lemma lookup_tabulate n g j : j < n → tabulate n g !! j = Some (g j).
Proof.
  intros Hj. unfold tabulate.
  by rewrite list_lookup_fmap, lookup_seq_lt.
Qed.

Lemma nth_tabulate n g j d : j < n → nth j (tabulate n g) d = g j.
Proof.
  intros Hj. by rewrite (nth_lookup_Some _ _ _ (g j)) by by apply lookup_tabulate.
Qed.

Lemma tabulate_ext n g h :
  (∀ j, j < n → g j = h j) → tabulate n g = tabulate n h.
Proof.
  intros Hgh. apply list_eq. intros j.
  destruct (decide (j < n)) as [Hj|Hj].
  - rewrite !lookup_tabulate by done. f_equal. auto.
  - rewrite !lookup_ge_None_2; [done | rewrite length_tabulate; lia ..].
Qed.

Lemma tabulate_nth (xs : list A) d :
  xs = tabulate (length xs) (λ j, nth j xs d).
Proof.
  apply list_eq. intros j.
  destruct (decide (j < length xs)) as [Hj|Hj].
  - rewrite lookup_tabulate by done.
    destruct (lookup_lt_is_Some_2 xs j Hj) as [v Hv].
    by rewrite (nth_lookup_Some _ _ _ v).
  - rewrite !lookup_ge_None_2; [done | rewrite ?length_tabulate; lia ..].
Qed.

Lemma tabulate_app n k g :
  tabulate (n + k) g = tabulate n g ++ tabulate k (λ j, g (n + j)).
Proof.
  unfold tabulate. rewrite seq_app, fmap_app. f_equal.
  replace (0 + n) with (n + 0) by lia.
  by rewrite <- (fmap_add_seq n 0 k), <- list_fmap_compose.
Qed.

Lemma replicate_tabulate n (a : A) : replicate n a = tabulate n (λ _, a).
Proof.
  apply list_eq. intros j.
  destruct (decide (j < n)) as [Hj|Hj].
  - rewrite lookup_tabulate by done. by apply lookup_replicate_2.
  - rewrite !lookup_ge_None_2;
      [done | rewrite ?length_tabulate, ?length_replicate; lia ..].
Qed.

Lemma join_tabulate n k (g : nat → nat → A) :
  mjoin ((λ i, tabulate k (g i)) <$> seq 0 n)
  = tabulate (n * k) (λ j, g (j / k) (j mod k)).
Proof.
  induction n as [|n IH].
  - done.
  - rewrite seq_S, fmap_app, join_app, IH. cbn [fmap list_fmap mjoin list_join].
    rewrite app_nil_r.
    replace (S n * k) with (n * k + k) by lia.
    rewrite tabulate_app. f_equal.
    apply tabulate_ext. intros j Hj.
    replace (n * k + j) with (j + n * k) by lia.
    rewrite Nat.div_add, Nat.Div0.mod_add by lia.
    rewrite Nat.div_small, Nat.mod_small by done. done.
Qed.

End Tabulate.

Lemma zip_with_tabulate {A B C} (f : A → B → C) n g h :
  zip_with f (tabulate n g) (tabulate n h) = tabulate n (λ j, f (g j) (h j)).
Proof.
  unfold tabulate. induction (seq 0 n) as [|i l IH]; [done|].
  cbn. by rewrite <- IH.
Qed.

Lemma fmap_tabulate {A B} (f : A → B) n g :
  f <$> tabulate n g = tabulate n (f ∘ g).
Proof. unfold tabulate. by rewrite <- list_fmap_compose. Qed.

(** ** The tensor runtime on buffers *)

Section Buffers.
Implicit Types (xs : list fnum) (s : list nat).

Lemma numel_cons n s : numel (n :: s) = n * numel s.
Proof. done. Qed.

Lemma length_chunk k i xs :
  (i + 1) * k ≤ length xs → length (chunk k i xs) = k.
Proof.
  intros Hlen. unfold chunk. rewrite length_take, length_drop. lia.
Qed.

Lemma chunk_tabulate k i xs :
  (i + 1) * k ≤ length xs →
  chunk k i xs = tabulate k (λ j, nth (i * k + j) xs NaN).
Proof.
  intros Hlen. apply list_eq. intros j. unfold chunk.
  destruct (decide (j < k)) as [Hj|Hj].
  - rewrite lookup_take_lt, lookup_drop, lookup_tabulate by done.
    destruct (lookup_lt_is_Some_2 xs (i * k + j)) as [v Hv]; [lia|].
    by rewrite Hv, (nth_lookup_Some _ _ _ v).
  - rewrite lookup_take_ge by lia.
    by rewrite lookup_ge_None_2 by (rewrite length_tabulate; lia).
Qed.

Lemma join_chunks k n xs :
  length xs = n * k → mjoin ((λ i, chunk k i xs) <$> seq 0 n) = xs.
Proof.
  intros Hlen.
  change (mjoin (tabulate n (λ i, chunk k i xs)) = xs).
  rewrite (tabulate_ext n _ (λ i, tabulate k (λ j, nth (i * k + j) xs NaN))).
  - unfold tabulate at 1. rewrite join_tabulate.
    rewrite (tabulate_nth xs NaN) at 1. rewrite Hlen.
    symmetry. apply tabulate_ext. intros j Hj. f_equal.
    rewrite (Nat.div_mod_eq j k) at 1. lia.
  - intros i Hi. apply chunk_tabulate. nia.
Qed.

Lemma sum_rows k n xs :
  n * k ≤ length xs →
  foldl (zip_with fadd) (replicate k zero) ((λ i, chunk k i xs) <$> seq 0 n)
  = tabulate k (λ j, sum_over n (λ t, nth (t * k + j) xs NaN)).
Proof.
  induction n as [|n IH]; intros Hlen.
  - cbn. apply replicate_tabulate.
  - rewrite seq_S, fmap_app. cbn [fmap list_fmap Nat.add].
    rewrite foldl_snoc, IH by lia.
    rewrite chunk_tabulate by lia.
    by rewrite zip_with_tabulate.
Qed.

Lemma sum_along_0 n s xs :
  length xs = n * numel s →
  sum_along 0 (n :: s) xs
  = tabulate (numel s) (λ j, sum_over n (λ t, nth (t * numel s + j) xs NaN)).
Proof. intros Hlen. cbn [sum_along]. apply sum_rows. lia. Qed.

Lemma expand_same s xs : length xs = numel s → expand s s xs = xs.
Proof.
  revert xs. induction s as [|n s IH]; intros xs Hlen; [done|].
  cbn [expand]. rewrite Nat.eqb_refl.
  transitivity (mjoin ((λ i, chunk (numel s) i xs) <$> seq 0 n));
    [|by apply join_chunks].
  f_equal. apply (tabulate_ext (A := list fnum)). intros i Hi.
  apply IH, length_chunk. rewrite Hlen, numel_cons.
  apply Nat.mul_le_mono_r. lia.
Qed.

Lemma expand_column B F xs :
  length xs = B →
  expand [B; 1] [B; F] xs = tabulate (B * F) (λ j, nth (j / F) xs NaN).
Proof.
  intros Hlen. cbn [expand numel foldr]. rewrite Nat.eqb_refl.
  rewrite <- (join_tabulate B F (λ i _, nth i xs NaN)).
  f_equal. apply (tabulate_ext (A := list fnum)). intros b Hb.
  rewrite (chunk_tabulate (1 * 1) b xs) by lia.
  transitivity (mjoin ((λ _, tabulate 1 (λ _, nth b xs NaN)) <$> seq 0 F)).
  - f_equal. apply (tabulate_ext (A := list fnum)). intros f Hf.
    destruct (1 =? F) eqn:HF.
    + apply Nat.eqb_eq in HF. subst F. replace f with 0 by lia.
      cbn. do 2 f_equal. lia.
    + cbn. do 2 f_equal. lia.
  - rewrite (join_tabulate F 1 (λ _ _, nth b xs NaN)).
    by replace (F * 1) with F by lia.
Qed.

End Buffers.


(** ** Tensors of the shapes the pool receives *)

Lemma sum_over_ext n g h :
  (∀ t, t < n → g t = h t) → sum_over n g = sum_over n h.
Proof.
  induction n as [|n IH]; intros Hgh; [done|].
  cbn. rewrite IH, Hgh by auto with lia. done.
Qed.

Lemma sum_of_tabulate n g : sum_of (tabulate n g) = sum_over n g.
Proof.
  unfold sum_of, tabulate. induction n as [|n IH]; [done|].
  rewrite seq_S, fmap_app. cbn [fmap list_fmap Nat.add].
  by rewrite foldl_snoc, IH.
Qed.

Lemma feqb_eq a b : feqb a b = true → a = b.
Proof.
  destruct a as [p| | |], b as [q| | |]; cbn; try done.
  intros Hpq. f_equal. by apply Qc_is_canon, Qeq_bool_eq.
Qed.

Lemma item_3d T B F x t b f :
  shape x = [T; B; F] →
  item x [t; b; f] = nth (t * (B * F) + (b * F + f)) (elems x) NaN.
Proof. intros Hs. unfold item. rewrite Hs. cbn. f_equal. lia. Qed.

Lemma item_2d T B m t b :
  shape m = [T; B] → item m [t; b] = nth (t * B + b) (elems m) NaN.
Proof. intros Hs. unfold item. rewrite Hs. cbn. f_equal. Qed.

Lemma sum_sequence T B F x :
  has_shape x [T; B; F] → sum x 0 = inr (summed_sequence T B F x).
Proof.
  intros [Hs Hwf]. unfold sum, summed_sequence. rewrite Hs.
  cbn [length Nat.ltb Nat.leb]. do 2 f_equal. cbn [delete list_delete].
  unfold wf in Hwf. rewrite Hs in Hwf.
  rewrite sum_along_0 by done.
  replace (numel [B; F]) with (B * F) by (cbn; lia).
  apply tabulate_ext. intros j Hj.
  assert (0 < F) by (destruct F; lia).
  unfold feature_over_time. change (?g <$> seq 0 T) with (tabulate T g).
  rewrite sum_of_tabulate.
  apply sum_over_ext. intros t _. rewrite (item_3d T B F) by done.
  f_equal. rewrite (Nat.div_mod_eq j F) at 1. lia.
Qed.

Lemma sum_mask T B m :
  has_shape m [T; B] → sum m 0 = inr (summed_mask T B m).
Proof.
  intros [Hs Hwf]. unfold sum, summed_mask. rewrite Hs.
  cbn [length Nat.ltb Nat.leb]. do 2 f_equal. cbn [delete list_delete].
  unfold wf in Hwf. rewrite Hs in Hwf.
  rewrite sum_along_0 by done.
  replace (numel [B]) with B by (cbn; lia).
  apply tabulate_ext. intros j Hj.
  unfold mask_over_time. change (?g <$> seq 0 T) with (tabulate T g).
  rewrite sum_of_tabulate.
  apply sum_over_ext. intros t _. by rewrite (item_2d T B).
Qed.

Lemma unsqueeze_column B s :
  shape s = [B] → unsqueeze s 1 = inr (as_column B s).
Proof. intros Hs. unfold unsqueeze, as_column. by rewrite Hs. Qed.

Lemma broadcast_column B F : broadcast_shapes [B; F] [B; 1] = Some [B; F].
Proof.
  unfold broadcast_shapes. cbn.
  destruct (F =? 1) eqn:HF; cbn; by rewrite Nat.eqb_refl.
Qed.

Lemma div_column B F s c :
  has_shape s [B; F] → has_shape c [B; 1] →
  div s c = inr (divide_rows B F s c).
Proof.
  intros [Hs Hwfs] [Hc Hwfc]. unfold div, divide_rows.
  rewrite Hs, Hc, broadcast_column.
  do 2 f_equal. unfold expand_as. cbn [length Nat.sub replicate app].
  unfold wf in *. rewrite Hs in Hwfs. rewrite Hc in Hwfc.
  rewrite expand_same by done.
  rewrite expand_column by (rewrite Hwfc; cbn; lia).
  rewrite (tabulate_nth (elems s) NaN) at 1.
  replace (length (elems s)) with (B * F) by (rewrite Hwfs; cbn; lia).
  rewrite zip_with_tabulate. apply tabulate_ext. intros j Hj.
  assert (0 < F) by (destruct F; lia).
  unfold item. rewrite Hs, Hc. cbn [ravel]. f_equal; f_equal.
  - rewrite (Nat.div_mod_eq j F) at 1. lia.
  - lia.
Qed.

Lemma mean_sequence T B F x :
  has_shape x [T; B; F] → mean x 0 = inr (unmasked_pool_spec T B F x).
Proof.
  intros Hx. unfold mean. rewrite (sum_sequence T B F) by done.
  destruct Hx as [Hs _]. rewrite Hs. cbn [lookup list_lookup default].
  unfold unmasked_pool_spec, summed_sequence, elems, shape.
  rewrite fmap_tabulate. do 2 f_equal.
  apply tabulate_ext. intros j _. unfold mean_of, feature_over_time. cbn.
  by rewrite length_fmap, length_seq.
Qed.

(** ** Running computations on the store *)

Lemma bind_return {A B} (m : M A) (k : A → M B) σ a σ' :
  m σ = (Return a, σ') → (m ≫= k) σ = k a σ'.
Proof. intros Hm. unfold mbind, M_bind. by rewrite Hm. Qed.

Lemma fresh_unused (σ : store) : σ !! fresh (dom σ) = None.
Proof. apply not_elem_of_dom, is_fresh. Qed.

Lemma tensor_at_mono (σ σ' : store) v t :
  σ ⊆ σ' → tensor_at σ v t → tensor_at σ' v t.
Proof.
  intros Hsub. destruct v as [|l|vs]; cbn; try done.
  intros Hl. by eapply lookup_weaken.
Qed.

Lemma alloc_yields t σ : yields (alloc t) σ t.
Proof.
  exists (VTensor (fresh (dom σ))), (<[fresh (dom σ) := t]> σ).
  split; [done|]. split.
  - apply insert_subseteq, fresh_unused.
  - cbn. apply lookup_insert_eq.
Qed.

Lemma call_method_yields f v dim t r σ :
  tensor_at σ v t → f t dim = inr r → yields (call_method f v dim) σ r.
Proof.
  destruct v as [|l|vs]; cbn; try done. intros Hl Hf.
  destruct (alloc_yields r σ) as (v' & σ' & Hrun & Hsub & Hat).
  exists v', σ'. split; [|done].
  erewrite bind_return by (unfold deref; by rewrite Hl).
  rewrite Hf. by erewrite bind_return by done.
Qed.

Lemma truediv_yields a b ta tb r σ :
  tensor_at σ a ta → tensor_at σ b tb → div ta tb = inr r →
  yields (truediv a b) σ r.
Proof.
  destruct a as [|la|?], b as [|lb|?]; cbn; try done. intros Ha Hb Hdiv.
  destruct (alloc_yields r σ) as (v' & σ' & Hrun & Hsub & Hat).
  exists v', σ'. split; [|done].
  erewrite bind_return by (unfold deref; by rewrite Ha).
  erewrite bind_return by (unfold deref; by rewrite Hb).
  rewrite Hdiv. by erewrite bind_return by done.
Qed.

Lemma yields_bind (m : M val) (k : val → M val) σ t r :
  yields m σ t →
  (∀ v σ', σ ⊆ σ' → tensor_at σ' v t → yields (k v) σ' r) →
  yields (m ≫= k) σ r.
Proof.
  intros (v & σ1 & Hrun & Hsub & Hat) Hk.
  destruct (Hk v σ1 Hsub Hat) as (v' & σ2 & Hrun' & Hsub' & Hat').
  exists v', σ2. split; [by erewrite bind_return by done|].
  split; [by etrans|done].
Qed.

Lemma yields_result m σ t : yields m σ t → result_of (m σ) = Some t.
Proof.
  intros (v & σ' & -> & _ & Hat). by destruct v.
Qed.

(** The masked branch returns step 4 of the specification. *)
Lemma mean_pool_masked_yields σ vx vm x m T B F :
  tensor_at σ vx x → tensor_at σ vm m →
  has_shape x [T; B; F] → has_shape m [T; B] →
  yields (mean_pool (VTuple [vx; vm])) σ (masked_pool_spec T B F x m).
Proof.
  intros Hvx Hvm Hx Hm. unfold mean_pool.
  assert (is_not_none vm = true) as Hnn by by destruct vm.
  assert (unpack2 (VTuple [vx; vm]) σ = (Return (vx, vm), σ)) as Hun by done.
  unfold yields. erewrite bind_return by exact Hun. cbv beta iota.
  rewrite Hnn.
  apply (yields_bind _ _ _ (summed_sequence T B F x)).
  { eapply call_method_yields; [done | by apply sum_sequence]. }
  intros s σ1 Hsub1 Hs.
  apply (yields_bind _ _ _ (summed_mask T B m)).
  { eapply call_method_yields; [by eapply tensor_at_mono | by apply sum_mask]. }
  intros c σ2 Hsub2 Hc.
  apply (yields_bind _ _ _ (as_column B (summed_mask T B m))).
  { eapply call_method_yields; [done | by apply unsqueeze_column]. }
  intros c1 σ3 Hsub3 Hc1.
  eapply truediv_yields; [| done |].
  - eapply tensor_at_mono; [|done]. by etrans.
  - apply div_column.
    + split; [done|]. unfold wf. cbn. rewrite length_tabulate. lia.
    + split; [done|]. unfold wf. cbn. rewrite length_tabulate. lia.
Qed.

(** The unmasked branch returns the mean over the time axis. *)
Lemma mean_pool_unmasked_yields σ vx x T B F :
  tensor_at σ vx x → has_shape x [T; B; F] →
  yields (mean_pool (VTuple [vx; VNone])) σ (unmasked_pool_spec T B F x).
Proof.
  intros Hvx Hx. unfold mean_pool.
  assert (unpack2 (VTuple [vx; VNone]) σ = (Return (vx, VNone), σ)) as Hun
    by done.
  unfold yields. erewrite bind_return by exact Hun. cbv beta iota.
  cbn [is_not_none].
  eapply call_method_yields; [done | by apply mean_sequence].
Qed.

(** ** Entries of the pooled tensors *)

Lemma row_major_div b f F : f < F → (b * F + f) / F = b.
Proof.
  intros Hf. rewrite Nat.div_add_l by lia. rewrite Nat.div_small by done. lia.
Qed.

Lemma row_major_mod b f F : f < F → (b * F + f) mod F = f.
Proof.
  intros Hf. rewrite Nat.add_comm, Nat.Div0.mod_add. by apply Nat.mod_small.
Qed.

Lemma row_major_lt b f B F : b < B → f < F → b * F + f < B * F.
Proof. intros Hb Hf. nia. Qed.

Lemma item_summed_sequence T B F x b f :
  b < B → f < F →
  item (summed_sequence T B F x) [b; f] = sum_of (feature_over_time x T b f).
Proof.
  intros Hb Hf. unfold item. cbn [summed_sequence shape elems ravel].
  rewrite nth_tabulate by (apply row_major_lt; lia).
  rewrite Nat.mul_0_l, Nat.add_0_l.
  by rewrite row_major_div, row_major_mod.
Qed.

Lemma item_summed_mask_column T B m b :
  b < B →
  item (as_column B (summed_mask T B m)) [b; 0] = sum_of (mask_over_time m T b).
Proof.
  intros Hb. unfold item. cbn [as_column summed_mask shape elems ravel].
  replace ((0 * B + b) * 1 + 0) with b by lia.
  by rewrite nth_tabulate.
Qed.

Lemma item_divide_rows B F s c b f :
  b < B → f < F →
  item (divide_rows B F s c) [b; f] = fdiv (item s [b; f]) (item c [b; 0]).
Proof.
  intros Hb Hf. unfold item at 1. cbn [divide_rows shape elems ravel].
  rewrite nth_tabulate by (apply row_major_lt; lia).
  rewrite Nat.mul_0_l, Nat.add_0_l.
  by rewrite row_major_div, row_major_mod.
Qed.

Lemma item_masked_pool_spec T B F x m b f :
  b < B → f < F →
  item (masked_pool_spec T B F x m) [b; f]
  = fdiv (sum_of (feature_over_time x T b f)) (sum_of (mask_over_time m T b)).
Proof.
  intros Hb Hf. unfold masked_pool_spec.
  rewrite item_divide_rows, item_summed_sequence, item_summed_mask_column;
    done.
Qed.

Lemma item_unmasked_pool_spec T B F x b f :
  b < B → f < F →
  item (unmasked_pool_spec T B F x) [b; f]
  = mean_of (feature_over_time x T b f).
Proof.
  intros Hb Hf. unfold item. cbn [unmasked_pool_spec shape elems ravel].
  rewrite nth_tabulate by (apply row_major_lt; lia).
  rewrite Nat.mul_0_l, Nat.add_0_l.
  by rewrite row_major_div, row_major_mod.
Qed.

Lemma wf_masked_pool_spec T B F x m : has_shape (masked_pool_spec T B F x m) [B; F].
Proof. split; [done|]. unfold wf. cbn. rewrite length_tabulate. lia. Qed.

Lemma wf_unmasked_pool_spec T B F x : has_shape (unmasked_pool_spec T B F x) [B; F].
Proof. split; [done|]. unfold wf. cbn. rewrite length_tabulate. lia. Qed.

(** ** Numbers *)

Lemma fadd_zero_r a : fadd a zero = a.
Proof. destruct a; cbn; try done. by rewrite Qcplus_0_r. Qed.

Lemma of_nat_S n : fadd (of_nat n) one = of_nat (S n).
Proof.
  unfold of_nat, of_Z, one. cbn [fadd]. f_equal.
  by rewrite Nat2Z.inj_succ, <- Z.add_1_r, Z2Qc_inj_add, Z2Qc_inj_1.
Qed.

Lemma of_nat_0 : of_nat 0 = zero.
Proof. unfold of_nat, of_Z, zero. f_equal. apply Z2Qc_inj_0. Qed.

Lemma fdiv_zero_not_finite a : is_finite (fdiv a zero) = false.
Proof.
  destruct a as [p| | |]; try done.
  unfold fdiv, zero.
  replace (0 ?= 0)%Qc with Eq by done.
  by destruct (p ?= 0)%Qc.
Qed.

(** ** Sample runs of the model *)

Lemma all_equal_eq xs ys : all_equal xs ys = true → xs = ys.
Proof.
  revert ys. induction xs as [|x xs IH]; intros [|y ys]; cbn; try done.
  intros [Hxy Hrest]%andb_true_iff. f_equal; [by apply feqb_eq | by apply IH].
Qed.

Lemma equal_eq a b : equal a b = true → a = b.
Proof.
  destruct a as [sa xa], b as [sb xb]. unfold equal. cbn.
  intros [Hs Hx]%andb_true_iff. apply bool_decide_eq_true in Hs.
  f_equal; [done | by apply all_equal_eq].
Qed.

Example sum_rows_of_matrix :
  sum (tensor_of [2; 3] [1; 2; 3; 4; 5; 6]%Z) 0 = inr (tensor_of [3] [5; 7; 9]%Z).
Proof. cbn [sum tensor_of shape]. f_equal. by apply equal_eq. Qed.

Example sum_columns_of_matrix :
  sum (tensor_of [2; 3] [1; 2; 3; 4; 5; 6]%Z) 1 = inr (tensor_of [2] [6; 15]%Z).
Proof. cbn [sum tensor_of shape]. f_equal. by apply equal_eq. Qed.

Example sum_dim_out_of_range :
  sum (tensor_of [2; 3] [1; 2; 3; 4; 5; 6]%Z) 2 = inl IndexError.
Proof. reflexivity. Qed.

Example mean_over_no_steps :
  mean (Tensor [0; 3] []) 0 = inr (Tensor [3] [NaN; NaN; NaN]).
Proof. reflexivity. Qed.

Example unsqueeze_vector :
  unsqueeze (tensor_of [2] [6; 15]%Z) 1 = inr (tensor_of [2; 1] [6; 15]%Z).
Proof. reflexivity. Qed.

Example div_by_column :
  div (tensor_of [2; 3] [2; 4; 6; 3; 6; 9]%Z) (tensor_of [2; 1] [2; 3]%Z)
  = inr (tensor_of [2; 3] [1; 2; 3; 1; 2; 3]%Z).
Proof. unfold div. cbn [broadcast_shapes]. f_equal. by apply equal_eq. Qed.

Example div_by_row :
  div (tensor_of [2; 3] [2; 6; 4; 4; 9; 8]%Z) (tensor_of [3] [2; 3; 4]%Z)
  = inr (tensor_of [2; 3] [1; 2; 1; 2; 3; 2]%Z).
Proof. unfold div. cbn [broadcast_shapes]. f_equal. by apply equal_eq. Qed.

Example div_shape_mismatch :
  div (tensor_of [2; 3] [2; 4; 6; 3; 6; 9]%Z) (tensor_of [2] [2; 3]%Z)
  = inl RuntimeError.
Proof. reflexivity. Qed.

Example div_by_zero_entries :
  div (Tensor [4] [one; zero; Fin (-1)%Qc; PInf]) (Tensor [1] [zero])
  = inr (Tensor [4] [PInf; NaN; NInf; PInf]).
Proof. reflexivity. Qed.

(** Outside the contract of [mean_pool] the call raises. *)
Example mean_pool_of_none : (mean_pool VNone ex_store).1 = Raise TypeError.
Proof. reflexivity. Qed.

Example mean_pool_of_triple :
  (mean_pool (VTuple [VTensor 1; VTensor 2; VNone]) ex_store).1
  = Raise ValueError.
Proof. reflexivity. Qed.

Example mean_pool_without_sequence :
  (mean_pool (VTuple [VNone; VTensor 2]) ex_store).1 = Raise AttributeError.
Proof. reflexivity. Qed.

Example mean_pool_mask_of_wrong_shape :
  (mean_pool (VTuple [VTensor 1; VTensor 2])
     {[ 1 := wide_x; 2 := ones [2; 3] ]}).1
  = Raise RuntimeError.
Proof. reflexivity. Qed.

Example get_rnn_hidden_state_empty_tuple :
  (get_rnn_hidden_state (VTuple []) ex_store).1 = Raise IndexError.
Proof. reflexivity. Qed.

(** ** Computations that only allocate *)

Create HintDb frame.

Lemma preserves_ret {A} (a : A) : preserves (mret a).
Proof. by intros σ. Qed.

Lemma preserves_raise {A} e : preserves (raise (A := A) e).
Proof. by intros σ. Qed.

Lemma preserves_bind {A B} (m : M A) (k : A → M B) :
  preserves m → (∀ a, preserves (k a)) → preserves (m ≫= k).
Proof.
  intros Hm Hk σ. unfold mbind, M_bind.
  specialize (Hm σ). destruct (m σ) as [[a|e] σ1]; cbn in Hm; [|done].
  etrans; [exact Hm | apply Hk].
Qed.

Lemma preserves_lift {A} (r : exn + A) : preserves (lift r).
Proof. destruct r; [apply preserves_raise | apply preserves_ret]. Qed.

Lemma preserves_alloc t : preserves (alloc t).
Proof. intros σ. cbn. apply insert_subseteq, fresh_unused. Qed.

Lemma preserves_deref l : preserves (deref l).
Proof. intros σ. unfold deref. by destruct (σ !! l). Qed.

#[local] Hint Resolve preserves_ret preserves_raise preserves_lift
  preserves_alloc preserves_deref : frame.
#[local] Hint Extern 2 (preserves (_ ≫= _)) =>
  apply preserves_bind; [|intros ?] : frame.

Lemma preserves_alloc_all ts : preserves (alloc_all ts).
Proof. induction ts as [|t ts IH]; cbn [alloc_all]; auto 6 with frame. Qed.

#[local] Hint Resolve preserves_alloc_all : frame.

Lemma preserves_getitem h i : preserves (getitem h i).
Proof.
  destruct h as [|l|vs]; cbn [getitem]; auto with frame.
  - apply preserves_bind; [auto with frame|]. intros t.
    destruct (unbind t !! i); auto with frame.
  - destruct (vs !! i); auto with frame.
Qed.

Lemma preserves_iterate v : preserves (iterate v).
Proof.
  destruct v as [|l|vs]; cbn [iterate]; auto with frame.
  apply preserves_bind; [auto with frame|]. intros t.
  destruct (shape t); auto with frame.
Qed.

Lemma preserves_unpack2 v : preserves (unpack2 v).
Proof.
  unfold unpack2. apply preserves_bind; [apply preserves_iterate|].
  intros [|a [|b [|c vs]]]; auto with frame.
Qed.

Lemma preserves_call_method f v dim : preserves (call_method f v dim).
Proof. destruct v; cbn [call_method]; auto 6 with frame. Qed.

Lemma preserves_truediv a b : preserves (truediv a b).
Proof. destruct a, b; cbn [truediv]; auto 8 with frame. Qed.

#[local] Hint Resolve preserves_getitem preserves_unpack2
  preserves_call_method preserves_truediv : frame.

(** * The claims *)

(** ** The hidden-state extractor *)

(** C4.  Hidden-state pair selection: on a pair [(a, b)] the extractor
    returns the first element [a], whatever [b] is, and touches nothing in
    the store. *)
Theorem get_rnn_hidden_state_pair (a b : val) (σ : store) :
  get_rnn_hidden_state (VTuple [a; b]) σ = (Return a, σ).
Proof. reflexivity. Qed.

(** C5.  Hidden-state pass-through: an input that is not a tuple, a single
    tensor in particular, is returned as it is. *)
Theorem get_rnn_hidden_state_passthrough (h : val) (σ : store) :
  isinstance_tuple h = false →
  get_rnn_hidden_state h σ = (Return h, σ).
Proof.
  intros Hh. unfold get_rnn_hidden_state. by rewrite Hh.
Qed.

Lemma get_rnn_hidden_state_passthrough_witness :
  get_rnn_hidden_state (VTensor 1) ex_store = (Return (VTensor 1), ex_store).
Proof.
  apply (get_rnn_hidden_state_passthrough (VTensor 1) ex_store).
  reflexivity.
Defined.

(** C10.  The extractor checks the type of its input, not its length: on
    any tuple with a first element, of length one, two, three or more, it
    returns that first element. *)
Theorem get_rnn_hidden_state_any_arity (a : val) (rest : list val) (σ : store) :
  get_rnn_hidden_state (VTuple (a :: rest)) σ = (Return a, σ).
Proof. reflexivity. Qed.

(** ** No mutation *)

(** C9.  Neither operation changes an object of the store: the extractor
    leaves the store as it is, and the pool only adds new tensors, so the
    sequence and the mask it was given read the same after the call, on
    every input and also when the call raises. *)
Theorem no_mutation_of_inputs :
  (∀ (h : val) (σ : store), (get_rnn_hidden_state h σ).2 = σ)
  ∧ (∀ data : val, preserves (mean_pool data)).
Proof.
  split.
  - intros h σ. by destruct h as [|l|[|a vs]].
  - intros data. unfold mean_pool.
    apply preserves_bind; [auto with frame|]. intros [x mask].
    destruct (is_not_none mask); auto 10 with frame.
Qed.

(** ** The pool *)

Lemma sum_of_ones T B b :
  b < B → sum_of (mask_over_time (ones [T; B]) T b) = of_nat T.
Proof.
  intros Hb. unfold mask_over_time.
  change (?g <$> seq 0 T) with (tabulate T g). rewrite sum_of_tabulate.
  rewrite (sum_over_ext T _ (λ _, one)).
  - induction T as [|n IH]; cbn [sum_over]; [by rewrite of_nat_0|].
    by rewrite IH, of_nat_S.
  - intros t Ht. rewrite (item_2d T B) by done. cbn [ones elems numel foldr].
    rewrite replicate_tabulate. apply nth_tabulate. nia.
Qed.

Lemma all_valid_spec T B F x :
  masked_pool_spec T B F x (ones [T; B]) = unmasked_pool_spec T B F x.
Proof.
  unfold masked_pool_spec at 1, divide_rows, unmasked_pool_spec. f_equal.
  apply tabulate_ext. intros j Hj.
  assert (0 < F) by (destruct F; lia).
  assert (j / F < B) by (apply Nat.Div0.div_lt_upper_bound; lia).
  assert (j mod F < F) by (apply Nat.mod_upper_bound; lia).
  rewrite item_summed_sequence, item_summed_mask_column by done.
  rewrite sum_of_ones by done. unfold mean_of, feature_over_time.
  by rewrite length_fmap, length_seq.
Qed.

(** C2.  The masked branch computes the four steps of the specification:
    the sequence summed over the time axis, divided entry by entry by the
    mask summed over the time axis and reshaped to a column.  Entry
    [(b, f)] of the result is the sum of feature [f] of batch element [b]
    over all time steps over the sum of the mask of [b]. *)
Theorem mean_pool_masked_steps (σ : store) (lx lm : loc) (x m : tensor)
    (T B F : nat) :
  σ !! lx = Some x → σ !! lm = Some m →
  shape x = [T; B; F] → wf x → shape m = [T; B] → wf m →
  result_of (mean_pool (VTuple [VTensor lx; VTensor lm]) σ)
  = Some (masked_pool_spec T B F x m)
  ∧ ∀ b f, b < B → f < F →
      item (masked_pool_spec T B F x m) [b; f]
      = fdiv (sum_of (feature_over_time x T b f))
             (sum_of (mask_over_time m T b)).
Proof.
  intros Hx Hm Hsx Hwx Hsm Hwm. split.
  - by apply yields_result, mean_pool_masked_yields.
  - intros b f Hb Hf. by apply item_masked_pool_spec.
Qed.

Lemma mean_pool_masked_steps_witness :
  result_of (mean_pool ex_data ex_store)
  = Some (masked_pool_spec 3 1 1 ex_x ex_mask)
  ∧ ∀ b f, b < 1 → f < 1 →
      item (masked_pool_spec 3 1 1 ex_x ex_mask) [b; f]
      = fdiv (sum_of (feature_over_time ex_x 3 b f))
             (sum_of (mask_over_time ex_mask 3 b)).
Proof.
  apply (mean_pool_masked_steps ex_store 1 2 ex_x ex_mask 3 1 1);
    reflexivity.
Defined.

(** C3.  Unmasked pooling is the arithmetic mean: with the mask absent
    and at least one time step, the pool returns a tensor of shape
    [B; F] whose entry [(b, f)] is the mean of feature [f] of batch
    element [b] over the time axis, the sum over the time steps over
    their number. *)
Theorem mean_pool_unmasked_mean (σ : store) (lx : loc) (x : tensor)
    (T B F : nat) :
  σ !! lx = Some x → shape x = [T; B; F] → wf x → 1 ≤ T →
  ∃ r, result_of (mean_pool (VTuple [VTensor lx; VNone]) σ) = Some r
       ∧ shape r = [B; F] ∧ wf r
       ∧ ∀ b f, b < B → f < F →
           item r [b; f] = mean_of (feature_over_time x T b f)
           ∧ mean_of (feature_over_time x T b f)
             = fdiv (sum_of (feature_over_time x T b f)) (of_nat T).
Proof.
  intros Hx Hsx Hwx _. exists (unmasked_pool_spec T B F x).
  split; [by apply yields_result, mean_pool_unmasked_yields|].
  split; [done|]. split; [apply wf_unmasked_pool_spec|].
  intros b f Hb Hf. split; [by apply item_unmasked_pool_spec|].
  unfold mean_of, feature_over_time. by rewrite length_fmap, length_seq.
Qed.

Lemma mean_pool_unmasked_mean_witness :
  ∃ r, result_of (mean_pool (VTuple [VTensor 1; VNone]) ex_store) = Some r
       ∧ shape r = [1; 1] ∧ wf r
       ∧ ∀ b f, b < 1 → f < 1 →
           item r [b; f] = mean_of (feature_over_time ex_x 3 b f)
           ∧ mean_of (feature_over_time ex_x 3 b f)
             = fdiv (sum_of (feature_over_time ex_x 3 b f)) (of_nat 3).
Proof.
  apply (mean_pool_unmasked_mean ex_store 1 ex_x 3 1 1);
    [reflexivity | reflexivity | reflexivity | lia].
Defined.

(** C6.  An all-ones mask changes nothing: with at least one time step,
    pooling with the mask [ones [T; B]] and pooling with the mask absent
    return the same tensor. *)
Theorem mean_pool_all_valid_mask (σ : store) (lx lm : loc) (x : tensor)
    (T B F : nat) :
  σ !! lx = Some x → shape x = [T; B; F] → wf x →
  σ !! lm = Some (ones [T; B]) → 1 ≤ T →
  ∃ r, result_of (mean_pool (VTuple [VTensor lx; VTensor lm]) σ) = Some r
       ∧ result_of (mean_pool (VTuple [VTensor lx; VNone]) σ) = Some r.
Proof.
  intros Hx Hsx Hwx Hm _. exists (unmasked_pool_spec T B F x). split.
  - rewrite <- all_valid_spec.
    apply yields_result, mean_pool_masked_yields; try done.
    split; [done|]. unfold wf. cbn. by rewrite length_replicate.
  - by apply yields_result, mean_pool_unmasked_yields.
Qed.

Lemma mean_pool_all_valid_mask_witness :
  ∃ r, result_of (mean_pool (VTuple [VTensor 1; VTensor 2]) ones_store) = Some r
       ∧ result_of (mean_pool (VTuple [VTensor 1; VNone]) ones_store) = Some r.
Proof.
  apply (mean_pool_all_valid_mask ones_store 1 2 wide_x 2 2 2);
    [reflexivity | reflexivity | reflexivity | reflexivity | lia].
Defined.

(** C7.  Division by a zero mask sum is not guarded: when the mask of
    batch element [b] sums to zero, the pool still returns a tensor of
    shape [B; F] and raises nothing; every entry of row [b] is the sum of
    the feature over the time steps divided by zero, an infinity or
    not-a-number and never a finite number. *)
Theorem mean_pool_zero_mask_sum (σ : store) (lx lm : loc) (x m : tensor)
    (T B F b : nat) :
  σ !! lx = Some x → σ !! lm = Some m →
  shape x = [T; B; F] → wf x → shape m = [T; B] → wf m →
  b < B → feqb (sum_of (mask_over_time m T b)) zero = true →
  ∃ l σ' r,
    mean_pool (VTuple [VTensor lx; VTensor lm]) σ = (Return (VTensor l), σ')
    ∧ σ' !! l = Some r ∧ shape r = [B; F] ∧ wf r
    ∧ ∀ f, f < F →
        item r [b; f] = fdiv (sum_of (feature_over_time x T b f)) zero
        ∧ is_finite (item r [b; f]) = false.
Proof.
  intros Hx Hm Hsx Hwx Hsm Hwm Hb Hzero.
  destruct (mean_pool_masked_yields σ (VTensor lx) (VTensor lm) x m T B F)
    as (v & σ' & Hrun & _ & Hat); try done.
  destruct v as [|l|vs]; try done.
  exists l, σ', (masked_pool_spec T B F x m).
  split; [done|]. split; [done|].
  split; [done|]. split; [apply wf_masked_pool_spec|].
  intros f Hf. rewrite item_masked_pool_spec by done.
  rewrite (feqb_eq _ _ Hzero). split; [done|]. apply fdiv_zero_not_finite.
Qed.

Lemma mean_pool_zero_mask_sum_witness :
  ∃ l σ' r,
    mean_pool (VTuple [VTensor 1; VTensor 2]) gap_store = (Return (VTensor l), σ')
    ∧ σ' !! l = Some r ∧ shape r = [2; 2] ∧ wf r
    ∧ ∀ f, f < 2 →
        item r [1; f] = fdiv (sum_of (feature_over_time wide_x 2 1 f)) zero
        ∧ is_finite (item r [1; f]) = false.
Proof.
  apply (mean_pool_zero_mask_sum gap_store 1 2 wide_x gap_mask 2 2 2 1);
    [reflexivity | reflexivity | reflexivity | reflexivity | reflexivity
    | reflexivity | lia | reflexivity].
Defined.

(** C8.  Shape of the output: on a sequence of shape [T; B; F], with the
    mask absent or of shape [T; B], the pool returns a tensor of rank 2
    and shape [B; F], in the masked and in the unmasked branch. *)
Theorem mean_pool_output_shape (σ : store) (lx : loc) (x : tensor)
    (mask : val) (T B F : nat) :
  σ !! lx = Some x → shape x = [T; B; F] → wf x →
  mask_ok σ mask T B = true →
  ∃ r, result_of (mean_pool (VTuple [VTensor lx; mask]) σ) = Some r
       ∧ shape r = [B; F] ∧ length (shape r) = 2 ∧ wf r.
Proof.
  intros Hx Hsx Hwx Hmask. destruct mask as [|lm|vs]; cbn in Hmask; [| |done].
  - exists (unmasked_pool_spec T B F x).
    split; [by apply yields_result, mean_pool_unmasked_yields|].
    split; [done|]. split; [done|]. apply wf_unmasked_pool_spec.
  - destruct (σ !! lm) as [m|] eqn:Hm; [|done].
    apply andb_true_iff in Hmask as [Hsm Hwm].
    apply bool_decide_eq_true in Hsm. apply Nat.eqb_eq in Hwm.
    exists (masked_pool_spec T B F x m).
    split; [by apply yields_result, mean_pool_masked_yields|].
    split; [done|]. split; [done|]. apply wf_masked_pool_spec.
Qed.

Lemma mean_pool_output_shape_witness :
  ∃ r, result_of (mean_pool (VTuple [VTensor 1; VTensor 2]) gap_store) = Some r
       ∧ shape r = [2; 2] ∧ length (shape r) = 2 ∧ wf r.
Proof.
  apply (mean_pool_output_shape gap_store 1 wide_x (VTensor 2) 2 2 2);
    reflexivity.
Defined.

(** *** Masked means *)

Lemma valid_steps_S m T b :
  valid_steps m (S T) b
  = valid_steps m T b ++ (if feqb (item m [T; b]) one then [T] else []).
Proof.
  unfold valid_steps. rewrite seq_S, List.filter_app. cbn [List.filter Nat.add].
  by destruct (feqb (item m [T; b]) one).
Qed.

(** The mask of a batch element sums to the number of its valid steps. *)
Lemma mask_sum_counts_valid m T b :
  (∀ t, t < T → feqb (item m [t; b]) one = true ∨ item m [t; b] = zero) →
  sum_of (mask_over_time m T b) = of_nat (length (valid_steps m T b)).
Proof.
  unfold mask_over_time. induction T as [|n IH]; intros Hcol.
  - cbn. by rewrite of_nat_0.
  - rewrite valid_steps_S, seq_S, fmap_app, length_app.
    cbn [fmap list_fmap Nat.add].
    unfold sum_of in *. rewrite foldl_snoc, IH by (intros t Ht; apply Hcol; lia).
    destruct (Hcol n) as [Hone|Hm0]; [lia| |].
    + rewrite Hone, (feqb_eq _ _ Hone). cbn [length].
      rewrite Nat.add_1_r. apply of_nat_S.
    + rewrite Hm0. replace (feqb zero one) with false by done.
      cbn [length]. by rewrite Nat.add_0_r, fadd_zero_r.
Qed.

(** Over a column whose masked-out steps hold zero, the sum over all
    steps is the sum over the valid ones. *)
Lemma padded_sum_over_valid x m T b f :
  (∀ t, t < T → feqb (item m [t; b]) one = true ∨ item x [t; b; f] = zero) →
  sum_of (feature_over_time x T b f)
  = sum_of ((λ t, item x [t; b; f]) <$> valid_steps m T b).
Proof.
  unfold feature_over_time. induction T as [|n IH]; intros Hcol; [done|].
  rewrite valid_steps_S, seq_S, !fmap_app. cbn [fmap list_fmap Nat.add].
  unfold sum_of in *. rewrite foldl_snoc, IH by (intros t Ht; apply Hcol; lia).
  destruct (feqb (item m [n; b]) one) eqn:Hone.
  - cbn [fmap list_fmap]. by rewrite foldl_snoc.
  - destruct (Hcol n) as [Hone'|Hx0]; [lia|congruence|].
    cbn [fmap list_fmap]. by rewrite Hx0, app_nil_r, fadd_zero_r.
Qed.

Lemma mask_entry m T B t b v :
  shape m = [T; B] → wf m → t < T → b < B →
  forallb (λ v, feqb v zero || feqb v one) (elems m) = true →
  item m [t; b] = v → feqb v one = false → v = zero.
Proof.
  intros Hs Hwf Ht Hb Hall Hv Hnot.
  rewrite forallb_forall in Hall.
  assert (In v (elems m)) as Hin.
  { rewrite <- Hv, (item_2d T B) by done. apply nth_In.
    unfold wf in Hwf. rewrite Hwf, Hs. cbn. nia. }
  specialize (Hall v Hin). rewrite Hnot, orb_false_r in Hall.
  by apply feqb_eq.
Qed.

Lemma mask_column m T B b :
  shape m = [T; B] → wf m → b < B → is_mask m = true →
  ∀ t, t < T → feqb (item m [t; b]) one = true ∨ item m [t; b] = zero.
Proof.
  intros Hs Hwf Hb Hmask t Ht.
  destruct (feqb (item m [t; b]) one) eqn:Hone; [by left|right].
  by eapply (mask_entry m T B t b).
Qed.

Lemma padded_column x m T B F b f :
  b < B → f < F → zero_padded x m T B F = true →
  ∀ t, t < T → feqb (item m [t; b]) one = true ∨ item x [t; b; f] = zero.
Proof.
  intros Hb Hf Hpad t Ht.
  assert (In t (seq 0 T)) as Hint by (apply in_seq; lia).
  assert (In b (seq 0 B)) as Hinb by (apply in_seq; lia).
  unfold zero_padded in Hpad. rewrite forallb_forall in Hpad.
  specialize (Hpad t Hint). rewrite forallb_forall in Hpad.
  specialize (Hpad b Hinb).
  destruct (feqb (item m [t; b]) one) eqn:Hone; [by left|right].
  cbn [orb] in Hpad. rewrite forallb_forall in Hpad.
  apply feqb_eq, Hpad, in_seq. lia.
Qed.

(** C1, the example as the specification gives it.  The sequence
    [[1], [2], [3]] with the mask [[1], [0], [1]] is a valid input: the
    mask holds zeros and ones and has a valid step.  The pool returns
    (1 + 2 + 3) / 2 = 3, while the mean over the two valid steps is
    (1 + 3) / 2 = 2: the masked-out step is counted in the sum. *)
Lemma mean_pool_masked_counts_invalid_steps :
  shape ex_x = [3; 1; 1] ∧ wf ex_x ∧ shape ex_mask = [3; 1] ∧ wf ex_mask
  ∧ is_mask ex_mask = true ∧ some_valid ex_mask 3 1 = true
  ∧ masked_mean ex_x ex_mask 3 0 0 = of_Z 2
  ∧ ∃ r, result_of (mean_pool ex_data ex_store) = Some r
         ∧ item r [0; 0] = of_Z 3
         ∧ item r [0; 0] ≠ masked_mean ex_x ex_mask 3 0 0.
Proof.
  assert (masked_mean ex_x ex_mask 3 0 0 = of_Z 2) as Hmean.
  { vm_compute. f_equal. by apply Qc_is_canon. }
  repeat (split; [done|]).
  exists (masked_pool_spec 3 1 1 ex_x ex_mask).
  split; [by apply yields_result, mean_pool_masked_yields|].
  assert (item (masked_pool_spec 3 1 1 ex_x ex_mask) [0; 0] = of_Z 3) as Hres.
  { vm_compute. f_equal. by apply Qc_is_canon. }
  split; [done|]. rewrite Hres, Hmean. intros Heq.
  by injection Heq.
Qed.

(** C1, amended.  With a mask of zeros and ones that has a valid step
    for every batch element, entry [(b, f)] of the masked pool is the sum
    of feature [f] of batch element [b] over all time steps, divided by
    the number of valid steps.  It is the arithmetic mean over the valid
    steps only when the sequence is zero at every position the mask does
    not mark valid.  On the sequence [[1], [2], [3]] with the mask
    [[1], [0], [1]] the result is (1 + 2 + 3) / 2 = 3. *)
Theorem mean_pool_masked_sum_over_valid_count :
  (∀ (σ : store) (lx lm : loc) (x m : tensor) (T B F : nat),
     σ !! lx = Some x → σ !! lm = Some m →
     shape x = [T; B; F] → wf x → shape m = [T; B] → wf m →
     is_mask m = true → some_valid m T B = true →
     ∃ r, result_of (mean_pool (VTuple [VTensor lx; VTensor lm]) σ) = Some r
          ∧ ∀ b f, b < B → f < F →
              item r [b; f]
              = fdiv (sum_of (feature_over_time x T b f))
                     (of_nat (length (valid_steps m T b)))
              ∧ (zero_padded x m T B F = true →
                 item r [b; f] = masked_mean x m T b f))
  ∧ (∃ r, result_of (mean_pool ex_data ex_store) = Some r
          ∧ item r [0; 0] = of_Z 3).
Proof.
  split.
  - intros σ lx lm x m T B F Hx Hm Hsx Hwx Hsm Hwm Hmask _.
    exists (masked_pool_spec T B F x m).
    split; [by apply yields_result, mean_pool_masked_yields|].
    intros b f Hb Hf. rewrite item_masked_pool_spec by done.
    rewrite (mask_sum_counts_valid m T b) by by apply (mask_column m T B).
    split; [done|]. intros Hpad.
    rewrite (padded_sum_over_valid x m T b f)
      by by apply (padded_column x m T B F).
    unfold masked_mean, mean_of. by rewrite length_fmap.
  - exists (masked_pool_spec 3 1 1 ex_x ex_mask). split.
    + by apply yields_result, mean_pool_masked_yields.
    + vm_compute. f_equal. by apply Qc_is_canon.
Qed.

Lemma mean_pool_masked_sum_over_valid_count_witness :
  ∃ r, result_of (mean_pool (VTuple [VTensor 1; VTensor 2]) pad_store) = Some r
       ∧ ∀ b f, b < 1 → f < 1 →
           item r [b; f]
           = fdiv (sum_of (feature_over_time pad_x 3 b f))
                  (of_nat (length (valid_steps ex_mask 3 b)))
           ∧ (zero_padded pad_x ex_mask 3 1 1 = true →
              item r [b; f] = masked_mean pad_x ex_mask 3 b f).
Proof.
  apply (proj1 mean_pool_masked_sum_over_valid_count pad_store 1 2 pad_x ex_mask 3 1 1);
    reflexivity.
Defined.

(** * Further properties of the two functions *)

(** ** Running [mean_pool] down to the tensor runtime *)

Lemma bind_raise {A B} (m : M A) (k : A → M B) σ e σ' :
  m σ = (Raise e, σ') → (m ≫= k) σ = (Raise e, σ').
Proof. intros Hm. unfold mbind, M_bind. by rewrite Hm. Qed.

Lemma alloc_yields_new t σ : yields_new (alloc t) σ t.
Proof.
  exists (fresh (dom σ)), (<[fresh (dom σ) := t]> σ).
  split; [done|]. split; [apply insert_subseteq, fresh_unused|].
  split; [apply fresh_unused | apply lookup_insert_eq].
Qed.

Lemma call_method_yields_new f v dim t r σ :
  tensor_at σ v t → f t dim = inr r → yields_new (call_method f v dim) σ r.
Proof.
  destruct v as [|l|vs]; cbn; try done. intros Hl Hf.
  destruct (alloc_yields_new r σ) as (l' & σ' & Hrun & Hrest).
  exists l', σ'. split; [|done].
  erewrite bind_return by (unfold deref; by rewrite Hl).
  rewrite Hf. by erewrite bind_return by done.
Qed.

Lemma call_method_raises f v dim t e σ :
  tensor_at σ v t → f t dim = inl e →
  call_method f v dim σ = (Raise e, σ).
Proof.
  destruct v as [|l|vs]; cbn; try done. intros Hl Hf.
  erewrite bind_return by (unfold deref; by rewrite Hl).
  by rewrite Hf.
Qed.

Lemma truediv_yields_new a b ta tb r σ :
  tensor_at σ a ta → tensor_at σ b tb → div ta tb = inr r →
  yields_new (truediv a b) σ r.
Proof.
  destruct a as [|la|?], b as [|lb|?]; cbn; try done. intros Ha Hb Hdiv.
  destruct (alloc_yields_new r σ) as (l' & σ' & Hrun & Hrest).
  exists l', σ'. split; [|done].
  erewrite bind_return by (unfold deref; by rewrite Ha).
  erewrite bind_return by (unfold deref; by rewrite Hb).
  rewrite Hdiv. by erewrite bind_return by done.
Qed.

Lemma truediv_raises a b ta tb e σ :
  tensor_at σ a ta → tensor_at σ b tb → div ta tb = inl e →
  truediv a b σ = (Raise e, σ).
Proof.
  destruct a as [|la|?], b as [|lb|?]; cbn; try done. intros Ha Hb Hdiv.
  erewrite bind_return by (unfold deref; by rewrite Ha).
  erewrite bind_return by (unfold deref; by rewrite Hb).
  by rewrite Hdiv.
Qed.

Lemma yields_new_bind (m : M val) (k : val → M val) σ t r :
  yields_new m σ t →
  (∀ l σ', σ ⊆ σ' → σ' !! l = Some t → yields_new (k (VTensor l)) σ' r) →
  yields_new (m ≫= k) σ r.
Proof.
  intros (l & σ1 & Hrun & Hsub & _ & Hl) Hk.
  destruct (Hk l σ1 Hsub Hl) as (l' & σ2 & Hrun' & Hsub' & Hnew & Hl').
  exists l', σ2. split; [by erewrite bind_return by done|].
  split; [by etrans|]. split; [|done].
  by eapply lookup_weaken_None.
Qed.

Lemma raises_after (m : M val) (k : val → M val) σ t e :
  yields_new m σ t →
  (∀ l σ', σ ⊆ σ' → σ' !! l = Some t → (k (VTensor l) σ').1 = Raise e) →
  ((m ≫= k) σ).1 = Raise e.
Proof.
  intros (l & σ1 & Hrun & Hsub & _ & Hl) Hk.
  erewrite bind_return by done. by apply Hk.
Qed.

Lemma unpack_pair (a b : val) σ : unpack2 (VTuple [a; b]) σ = (Return (a, b), σ).
Proof. done. Qed.

(** The masked branch, reduced to the four calls into the runtime. *)
Lemma mean_pool_masked_runs σ vx vm x m sx sm c r :
  tensor_at σ vx x → tensor_at σ vm m →
  sum x 0 = inr sx → sum m 0 = inr sm → unsqueeze sm 1 = inr c →
  div sx c = inr r →
  yields_new (mean_pool (VTuple [vx; vm])) σ r.
Proof.
  intros Hvx Hvm Hsx Hsm Hc Hr. unfold mean_pool, yields_new.
  assert (is_not_none vm = true) as Hnn by by destruct vm.
  erewrite bind_return by apply unpack_pair. cbv beta iota. rewrite Hnn.
  apply (yields_new_bind _ _ _ sx); [by eapply call_method_yields_new|].
  intros l1 σ1 Hsub1 Hl1.
  apply (yields_new_bind _ _ _ sm).
  { eapply call_method_yields_new; [by eapply tensor_at_mono | done]. }
  intros l2 σ2 Hsub2 Hl2.
  apply (yields_new_bind _ _ _ c); [by eapply call_method_yields_new|].
  intros l3 σ3 Hsub3 Hl3.
  eapply truediv_yields_new; [|done|done].
  cbn. eapply lookup_weaken; [done|]. by etrans.
Qed.

Lemma mean_pool_masked_unsqueeze_raises σ vx vm x m sx sm e :
  tensor_at σ vx x → tensor_at σ vm m →
  sum x 0 = inr sx → sum m 0 = inr sm → unsqueeze sm 1 = inl e →
  (mean_pool (VTuple [vx; vm]) σ).1 = Raise e.
Proof.
  intros Hvx Hvm Hsx Hsm He. unfold mean_pool.
  assert (is_not_none vm = true) as Hnn by by destruct vm.
  erewrite bind_return by apply unpack_pair. cbv beta iota. rewrite Hnn.
  apply (raises_after _ _ _ sx); [by eapply call_method_yields_new|].
  intros l1 σ1 Hsub1 Hl1.
  apply (raises_after _ _ _ sm).
  { eapply call_method_yields_new; [by eapply tensor_at_mono | done]. }
  intros l2 σ2 Hsub2 Hl2.
  erewrite bind_raise; [done|]. by eapply call_method_raises.
Qed.

Lemma mean_pool_masked_div_raises σ vx vm x m sx sm c e :
  tensor_at σ vx x → tensor_at σ vm m →
  sum x 0 = inr sx → sum m 0 = inr sm → unsqueeze sm 1 = inr c →
  div sx c = inl e →
  (mean_pool (VTuple [vx; vm]) σ).1 = Raise e.
Proof.
  intros Hvx Hvm Hsx Hsm Hc He. unfold mean_pool.
  assert (is_not_none vm = true) as Hnn by by destruct vm.
  erewrite bind_return by apply unpack_pair. cbv beta iota. rewrite Hnn.
  apply (raises_after _ _ _ sx); [by eapply call_method_yields_new|].
  intros l1 σ1 Hsub1 Hl1.
  apply (raises_after _ _ _ sm).
  { eapply call_method_yields_new; [by eapply tensor_at_mono | done]. }
  intros l2 σ2 Hsub2 Hl2.
  apply (raises_after _ _ _ c); [by eapply call_method_yields_new|].
  intros l3 σ3 Hsub3 Hl3.
  erewrite truediv_raises; [done| |done|done].
  cbn. eapply lookup_weaken; [done|]. by etrans.
Qed.

Lemma mean_pool_unmasked_runs σ vx x r :
  tensor_at σ vx x → mean x 0 = inr r →
  yields_new (mean_pool (VTuple [vx; VNone])) σ r.
Proof.
  intros Hvx Hr. unfold mean_pool, yields_new.
  erewrite bind_return by apply unpack_pair. cbv beta iota.
  cbn [is_not_none]. by eapply call_method_yields_new.
Qed.

Lemma yields_new_result m σ t : yields_new m σ t → result_of (m σ) = Some t.
Proof. by intros (l & σ' & -> & _ & _ & Hl). Qed.

Lemma sum_dim0_total t : ∃ r, sum t 0 = inr r ∧ shape r = tail (shape t).
Proof.
  unfold sum. destruct t as [[|n s] xs]; cbn; eauto.
Qed.

Lemma broadcast_batch_mismatch B B' F :
  B ≠ B' → B ≠ 1 → B' ≠ 1 → broadcast_shapes [B; F] [B'; 1] = None.
Proof.
  intros Hne HB HB'. unfold broadcast_shapes. cbn.
  apply Nat.eqb_neq in Hne, HB, HB'.
  destruct (F =? 1); cbn; by rewrite Hne, HB, HB'.
Qed.

Lemma mean_pool_masked_new σ vx vm x m T T' B F :
  tensor_at σ vx x → tensor_at σ vm m →
  has_shape x [T; B; F] → has_shape m [T'; B] →
  yields_new (mean_pool (VTuple [vx; vm])) σ
    (divide_rows B F (summed_sequence T B F x)
                     (as_column B (summed_mask T' B m))).
Proof.
  intros Hvx Hvm Hx Hm.
  eapply mean_pool_masked_runs; try done.
  - by apply sum_sequence.
  - by apply sum_mask.
  - by apply unsqueeze_column.
  - apply div_column.
    + split; [done|]. unfold wf. cbn. rewrite length_tabulate. lia.
    + split; [done|]. unfold wf. cbn. rewrite length_tabulate. lia.
Qed.

(** ** Inputs the functions reject *)

(** X1.  A tuple that does not hold exactly two values is rejected at the
    unpacking [x, mask = data] with a ValueError, before any tensor is
    read and with the store as it was. *)
Theorem mean_pool_wrong_arity (vs : list val) (σ : store) :
  length vs ≠ 2 → mean_pool (VTuple vs) σ = (Raise ValueError, σ).
Proof.
  intros Hlen. by destruct vs as [|a [|b [|c vs]]].
Qed.

Lemma mean_pool_wrong_arity_witness :
  mean_pool (VTuple [VTensor 1; VTensor 2; VNone]) ex_store
  = (Raise ValueError, ex_store).
Proof.
  apply (mean_pool_wrong_arity [VTensor 1; VTensor 2; VNone] ex_store).
  simpl. lia.
Defined.

(** X2.  The sequence is required in both branches: when the first
    component of the pair is not a tensor, the call raises an
    AttributeError whatever the mask is, and the store is as it was. *)
Theorem mean_pool_sequence_required (x mask : val) (σ : store) :
  is_tensor x = false →
  mean_pool (VTuple [x; mask]) σ = (Raise AttributeError, σ).
Proof.
  intros Hx. by destruct x, mask.
Qed.

Lemma mean_pool_sequence_required_witness :
  mean_pool (VTuple [VNone; VTensor 2]) ex_store
  = (Raise AttributeError, ex_store).
Proof.
  apply (mean_pool_sequence_required VNone (VTensor 2) ex_store).
  reflexivity.
Defined.

(** X3.  A mask of rank below two is rejected: its sum over the time axis
    has no dimension left for [unsqueeze(1)], which raises an IndexError,
    whatever the sequence holds. *)
Theorem mean_pool_mask_of_low_rank (σ : store) (lx lm : loc) (x m : tensor) :
  σ !! lx = Some x → σ !! lm = Some m → length (shape m) ≤ 1 →
  (mean_pool (VTuple [VTensor lx; VTensor lm]) σ).1 = Raise IndexError.
Proof.
  intros Hx Hm Hrank.
  destruct (sum_dim0_total x) as (sx & Hsx & _).
  destruct (sum_dim0_total m) as (sm & Hsm & Hshape).
  eapply (mean_pool_masked_unsqueeze_raises σ _ _ x m sx sm); try done.
  unfold unsqueeze. rewrite Hshape.
  by destruct (shape m) as [|n [|n' s]]; cbn in *; [..|lia].
Qed.

Lemma mean_pool_mask_of_low_rank_witness :
  (mean_pool (VTuple [VTensor 1; VTensor 2]) flat_store).1 = Raise IndexError.
Proof.
  apply (mean_pool_mask_of_low_rank flat_store 1 2 wide_x flat_mask);
    [reflexivity | reflexivity | simpl; lia].
Defined.

(** X4.  A mask made for another batch size is rejected: with batch sizes
    [B] and [B'] that differ and are both other than one, the division
    cannot broadcast and raises a RuntimeError. *)
Theorem mean_pool_batch_mismatch (σ : store) (lx lm : loc) (x m : tensor)
    (T T' B B' F : nat) :
  σ !! lx = Some x → σ !! lm = Some m →
  shape x = [T; B; F] → wf x → shape m = [T'; B'] → wf m →
  B ≠ B' → B ≠ 1 → B' ≠ 1 →
  (mean_pool (VTuple [VTensor lx; VTensor lm]) σ).1 = Raise RuntimeError.
Proof.
  intros Hx Hm Hsx Hwx Hsm Hwm Hne HB HB'.
  eapply (mean_pool_masked_div_raises σ _ _ x m); try done.
  - by apply (sum_sequence T B F).
  - by apply (sum_mask T' B').
  - by apply (unsqueeze_column B').
  - unfold div. cbn [shape summed_sequence as_column].
    by rewrite broadcast_batch_mismatch.
Qed.

Lemma mean_pool_batch_mismatch_witness :
  (mean_pool (VTuple [VTensor 1; VTensor 2]) three_store).1
  = Raise RuntimeError.
Proof.
  apply (mean_pool_batch_mismatch three_store 1 2 wide_x three_mask 2 2 2 3 2);
    [reflexivity | reflexivity | reflexivity | reflexivity | reflexivity
    | reflexivity | lia | lia | lia].
Defined.

(** X5.  The extractor fails on one input only: a call that raises was
    given the empty tuple and raises an IndexError, and the empty tuple
    does raise it. *)
Theorem get_rnn_hidden_state_fails_on_empty_tuple_only :
  (∀ (h : val) (σ : store) (e : exn),
     (get_rnn_hidden_state h σ).1 = Raise e → h = VTuple [] ∧ e = IndexError)
  ∧ (∀ σ : store,
       get_rnn_hidden_state (VTuple []) σ = (Raise IndexError, σ)).
Proof.
  split; [|done].
  intros h σ e. destruct h as [|l|[|a vs]]; cbn; try done.
  by intros [= <-].
Qed.

Lemma get_rnn_hidden_state_fails_on_empty_tuple_only_witness :
  VTuple [] = VTuple [] ∧ IndexError = IndexError.
Proof.
  apply (proj1 get_rnn_hidden_state_fails_on_empty_tuple_only
           (VTuple []) ex_store IndexError).
  reflexivity.
Defined.

(** ** Inputs the pool accepts *)

(** X6.  The time length of the mask is not checked against the
    sequence: a mask of shape [T'; B] is accepted for any [T'], and entry
    [(b, f)] of the result is the sum of the feature over the [T] steps of
    the sequence divided by the sum of the mask over its own [T'] steps. *)
Theorem mean_pool_mask_length_unchecked (σ : store) (lx lm : loc)
    (x m : tensor) (T T' B F : nat) :
  σ !! lx = Some x → σ !! lm = Some m →
  shape x = [T; B; F] → wf x → shape m = [T'; B] → wf m →
  ∃ r, result_of (mean_pool (VTuple [VTensor lx; VTensor lm]) σ) = Some r
       ∧ shape r = [B; F]
       ∧ ∀ b f, b < B → f < F →
           item r [b; f]
           = fdiv (sum_of (feature_over_time x T b f))
                  (sum_of (mask_over_time m T' b)).
Proof.
  intros Hx Hm Hsx Hwx Hsm Hwm.
  eexists. split.
  { by apply yields_new_result, (mean_pool_masked_new σ _ _ x m T T' B F). }
  split; [done|]. intros b f Hb Hf.
  by rewrite item_divide_rows, item_summed_sequence, item_summed_mask_column.
Qed.

Lemma mean_pool_mask_length_unchecked_witness :
  ∃ r, result_of (mean_pool (VTuple [VTensor 1; VTensor 2]) long_store) = Some r
       ∧ shape r = [2; 2]
       ∧ ∀ b f, b < 2 → f < 2 →
           item r [b; f]
           = fdiv (sum_of (feature_over_time wide_x 2 b f))
                  (sum_of (mask_over_time long_mask 3 b)).
Proof.
  apply (mean_pool_mask_length_unchecked long_store 1 2 wide_x long_mask 2 3 2 2);
    reflexivity.
Defined.

(** X7.  The pool returns a new tensor object: on a valid input the
    reference it returns is not one the store held before the call, so it
    is neither the sequence nor the mask. *)
Theorem mean_pool_returns_new_tensor (σ : store) (lx : loc) (x : tensor)
    (mask : val) (T B F : nat) :
  σ !! lx = Some x → shape x = [T; B; F] → wf x →
  mask_ok σ mask T B = true →
  ∃ l σ', mean_pool (VTuple [VTensor lx; mask]) σ = (Return (VTensor l), σ')
          ∧ σ !! l = None ∧ is_Some (σ' !! l)
          ∧ l ≠ lx ∧ mask ≠ VTensor l.
Proof.
  intros Hx Hsx Hwx Hmask.
  assert (∃ r, yields_new (mean_pool (VTuple [VTensor lx; mask])) σ r)
    as (r & l & σ' & Hrun & _ & Hnew & Hl).
  { destruct mask as [|lm|vs]; cbn in Hmask; [| |done].
    - eexists. eapply mean_pool_unmasked_runs; [done|].
      by apply (mean_sequence T B F).
    - destruct (σ !! lm) as [m|] eqn:Hm; [|done].
      apply andb_true_iff in Hmask as [Hsm Hwm].
      apply bool_decide_eq_true in Hsm. apply Nat.eqb_eq in Hwm.
      eexists. by apply (mean_pool_masked_new σ _ _ x m T T B F). }
  exists l, σ'. split; [done|]. split; [done|]. split; [by eexists|].
  split; [congruence|].
  intros ->. cbn in Hmask. by rewrite Hnew in Hmask.
Qed.

Lemma mean_pool_returns_new_tensor_witness :
  ∃ l σ', mean_pool (VTuple [VTensor 1; VTensor 2]) ex_store
          = (Return (VTensor l), σ')
          ∧ ex_store !! l = None ∧ is_Some (σ' !! l)
          ∧ l ≠ 1 ∧ VTensor 2 ≠ VTensor l.
Proof.
  apply (mean_pool_returns_new_tensor ex_store 1 ex_x (VTensor 2) 3 1 1);
    reflexivity.
Defined.

(** ** More on the entries *)

Lemma fadd_zero_l a : fadd zero a = a.
Proof. destruct a; cbn; try done. by rewrite Qcplus_0_l. Qed.

Lemma fdiv_one a : fdiv a (of_nat 1) = a.
Proof.
  destruct a as [p| | |]; try done.
  unfold of_nat, of_Z, fdiv. change (Z.of_nat 1) with 1%Z.
  replace (Qc_of_Z 1 ?= 0)%Qc with Gt by done.
  f_equal. rewrite Z2Qc_inj_1. apply Qcdiv_right_id.
Qed.








(** ** Values of the pooled entries *)



(** X9.  A sequence without time steps pools to not-a-number: for a
    sequence of shape [0; B; F], with the mask absent or of shape
    [0; B], the call returns a tensor of shape [B; F] and every entry of
    it is NaN, the quotient of an empty sum by zero. *)
Theorem mean_pool_no_time_steps (σ : store) (lx : loc) (x : tensor)
    (mask : val) (B F : nat) :
  σ !! lx = Some x → shape x = [0; B; F] → wf x →
  mask_ok σ mask 0 B = true →
  ∃ r, result_of (mean_pool (VTuple [VTensor lx; mask]) σ) = Some r
       ∧ shape r = [B; F]
       ∧ ∀ b f, b < B → f < F → item r [b; f] = NaN.
Proof.
  intros Hx Hsx Hwx Hmask. destruct mask as [|lm|vs]; cbn in Hmask; [| |done].
  - exists (unmasked_pool_spec 0 B F x).
    split; [by apply yields_result, mean_pool_unmasked_yields|].
    split; [done|]. intros b f Hb Hf.
    by rewrite item_unmasked_pool_spec.
  - destruct (σ !! lm) as [m|] eqn:Hm; [|done].
    apply andb_true_iff in Hmask as [Hsm Hwm].
    apply bool_decide_eq_true in Hsm. apply Nat.eqb_eq in Hwm.
    exists (masked_pool_spec 0 B F x m).
    split; [by apply yields_result, mean_pool_masked_yields|].
    split; [done|]. intros b f Hb Hf.
    by rewrite item_masked_pool_spec.
Qed.

Lemma mean_pool_no_time_steps_witness :
  ∃ r, result_of (mean_pool (VTuple [VTensor 1; VTensor 2]) none_store) = Some r
       ∧ shape r = [2; 2]
       ∧ ∀ b f, b < 2 → f < 2 → item r [b; f] = NaN.
Proof.
  apply (mean_pool_no_time_steps none_store 1 none_x (VTensor 2) 2 2);
    reflexivity.
Defined.

Lemma single_step_spec B F x :
  has_shape x [1; B; F] → unmasked_pool_spec 1 B F x = Tensor [B; F] (elems x).
Proof.
  intros [Hs Hwf]. unfold unmasked_pool_spec. f_equal.
  rewrite (tabulate_nth (elems x) NaN).
  unfold wf in Hwf. rewrite Hwf, Hs.
  replace (numel [1; B; F]) with (B * F) by (cbn; lia).
  apply tabulate_ext. intros j Hj.
  assert (0 < F) by (destruct F; lia).
  unfold mean_of, feature_over_time, sum_of.
  cbn [seq fmap list_fmap foldl length].
  rewrite fadd_zero_l, fdiv_one, (item_3d 1 B F) by done.
  f_equal. rewrite (Nat.div_mod_eq j F) at 3. lia.
Qed.

(** X10.  A sequence of one time step pools to that step: for a sequence
    of shape [1; B; F] the pool returns the entries of the sequence with
    the time axis dropped, with the mask absent and with an all-ones
    mask alike, infinities and NaN included. *)
Theorem mean_pool_single_step (σ : store) (lx lm : loc) (x : tensor)
    (B F : nat) :
  σ !! lx = Some x → shape x = [1; B; F] → wf x →
  σ !! lm = Some (ones [1; B]) →
  result_of (mean_pool (VTuple [VTensor lx; VNone]) σ)
  = Some (Tensor [B; F] (elems x))
  ∧ result_of (mean_pool (VTuple [VTensor lx; VTensor lm]) σ)
    = Some (Tensor [B; F] (elems x)).
Proof.
  intros Hx Hsx Hwx Hm. rewrite <- (single_step_spec B F x) by done. split.
  - by apply yields_result, mean_pool_unmasked_yields.
  - rewrite <- all_valid_spec.
    apply yields_result, mean_pool_masked_yields; try done.
    split; [done|]. unfold wf. cbn. by rewrite length_replicate.
Qed.

Lemma mean_pool_single_step_witness :
  result_of (mean_pool (VTuple [VTensor 1; VNone]) step_store)
  = Some (Tensor [2; 2] (elems step_x))
  ∧ result_of (mean_pool (VTuple [VTensor 1; VTensor 2]) step_store)
    = Some (Tensor [2; 2] (elems step_x)).
Proof.
  apply (mean_pool_single_step step_store 1 2 step_x 2 2); reflexivity.
Defined.

(** ** Padding and the order of the time steps *)






















(** ** Bounds *)











(** ** Broadcasting over the batch axis *)

Lemma expand_1d n m xs :
  length xs = n → n = m ∨ n = 1 →
  expand [n] [m] xs = tabulate m (λ f, nth (if n =? m then f else 0) xs NaN).
Proof.
  intros Hlen Hnm. cbn [expand numel foldr].
  transitivity
    (mjoin ((λ i, tabulate 1 (λ _, nth (if n =? m then i else 0) xs NaN))
              <$> seq 0 m)).
  - f_equal. apply (tabulate_ext (A := list fnum)). intros i Hi.
    assert ((if n =? m then i else 0) < n) as Hidx.
    { destruct (n =? m) eqn:E; [apply Nat.eqb_eq in E; lia|].
      apply Nat.eqb_neq in E. lia. }
    rewrite chunk_tabulate by lia.
    apply tabulate_ext. intros j Hj. f_equal. lia.
  - rewrite (join_tabulate m 1
               (λ i _, nth (if n =? m then i else 0) xs NaN)).
    replace (m * 1) with m by lia.
    apply tabulate_ext. intros j Hj. by rewrite Nat.div_1_r.
Qed.

Lemma expand_2d n1 n2 m1 m2 xs :
  length xs = n1 * n2 → n1 = m1 ∨ n1 = 1 → n2 = m2 ∨ n2 = 1 →
  expand [n1; n2] [m1; m2] xs
  = tabulate (m1 * m2)
      (λ j, nth ((if n1 =? m1 then j / m2 else 0) * n2
                 + (if n2 =? m2 then j mod m2 else 0)) xs NaN).
Proof.
  intros Hlen H1 H2.
  change (expand [n1; n2] [m1; m2] xs)
    with (mjoin ((λ i, expand [n2] [m2]
                         (chunk (numel [n2]) (if n1 =? m1 then i else 0) xs))
                   <$> seq 0 m1)).
  replace (numel [n2]) with n2 by (cbn; lia).
  rewrite <- (join_tabulate m1 m2
                (λ i f, nth ((if n1 =? m1 then i else 0) * n2
                             + (if n2 =? m2 then f else 0)) xs NaN)).
  f_equal. apply (tabulate_ext (A := list fnum)). intros i Hi.
  assert ((if n1 =? m1 then i else 0) < n1) as Hidx.
  { destruct (n1 =? m1) eqn:E; [apply Nat.eqb_eq in E; lia|].
    apply Nat.eqb_neq in E. lia. }
  assert (((if n1 =? m1 then i else 0) + 1) * n2 ≤ length xs) as Hfit.
  { rewrite Hlen. apply Nat.mul_le_mono_r. lia. }
  rewrite expand_1d by (done || by apply length_chunk).
  apply tabulate_ext. intros f Hf.
  assert ((if n2 =? m2 then f else 0) < n2) as Hidx2.
  { destruct (n2 =? m2) eqn:E; [apply Nat.eqb_eq in E; lia|].
    apply Nat.eqb_neq in E. lia. }
  rewrite chunk_tabulate by done. by rewrite nth_tabulate.
Qed.

Lemma div_by_single_column B F s c :
  has_shape s [B; F] → has_shape c [1; 1] →
  div s c
  = inr (Tensor [B; F]
           (tabulate (B * F)
              (λ j, fdiv (nth j (elems s) NaN) (nth 0 (elems c) NaN)))).
Proof.
  intros [Hs Hwfs] [Hc Hwfc]. unfold div. rewrite Hs, Hc.
  assert (broadcast_shapes [B; F] [1; 1] = Some [B; F]) as ->.
  { unfold broadcast_shapes. cbn. by destruct (F =? 1), (B =? 1). }
  do 2 f_equal. unfold expand_as. cbn [length Nat.sub replicate app].
  unfold wf in *. rewrite Hs in Hwfs. rewrite Hc in Hwfc.
  rewrite expand_same by done.
  rewrite expand_2d by (rewrite ?Hwfc; cbn; auto).
  rewrite (tabulate_nth (elems s) NaN) at 1.
  replace (length (elems s)) with (B * F) by (rewrite Hwfs; cbn; lia).
  rewrite zip_with_tabulate. apply tabulate_ext. intros j Hj.
  do 2 f_equal.
  assert (0 < F) by (destruct F; lia).
  destruct (1 =? B) eqn:HB, (1 =? F) eqn:HF;
    try apply Nat.eqb_eq in HB; try apply Nat.eqb_eq in HF; subst;
    rewrite ?Nat.div_1_r, ?Nat.mod_1_r; try lia.
  rewrite Nat.div_small by lia. lia.
Qed.

Lemma div_single_row B F s c :
  has_shape s [1; F] → has_shape c [B; 1] →
  div s c
  = inr (Tensor [B; F]
           (tabulate (B * F)
              (λ j, fdiv (nth (j mod F) (elems s) NaN)
                         (nth (j / F) (elems c) NaN)))).
Proof.
  intros [Hs Hwfs] [Hc Hwfc]. unfold div. rewrite Hs, Hc.
  assert (broadcast_shapes [1; F] [B; 1] = Some [B; F]) as ->.
  { unfold broadcast_shapes. cbn. by destruct (F =? 1), B as [|[|B']]. }
  do 2 f_equal. unfold expand_as. cbn [length Nat.sub replicate app].
  unfold wf in *. rewrite Hs in Hwfs. rewrite Hc in Hwfc.
  rewrite expand_2d by (rewrite ?Hwfs; cbn; auto with lia).
  rewrite expand_column by (rewrite Hwfc; cbn; lia).
  rewrite zip_with_tabulate. apply tabulate_ext. intros j Hj.
  f_equal. f_equal. rewrite Nat.eqb_refl.
  destruct (1 =? B) eqn:HB; [|lia].
  apply Nat.eqb_eq in HB. subst B.
  assert (0 < F) by (destruct F; lia).
  rewrite Nat.div_small by lia. lia.
Qed.

(** X15.  A mask with a single batch column is applied to every batch
    element: for a mask of shape [T'; 1] the call does not fail, and
    entry [(b, f)] of the result is the sum of the feature over time
    divided by the sum of that one mask column, for every [b]. *)
Theorem mean_pool_single_mask_column (σ : store) (lx lm : loc)
    (x m : tensor) (T T' B F : nat) :
  σ !! lx = Some x → σ !! lm = Some m →
  shape x = [T; B; F] → wf x → shape m = [T'; 1] → wf m →
  ∃ r, result_of (mean_pool (VTuple [VTensor lx; VTensor lm]) σ) = Some r
       ∧ shape r = [B; F]
       ∧ ∀ b f, b < B → f < F →
           item r [b; f]
           = fdiv (sum_of (feature_over_time x T b f))
                  (sum_of (mask_over_time m T' 0)).
Proof.
  intros Hx Hm Hsx Hwx Hsm Hwm. eexists. split.
  { apply yields_new_result.
    eapply (mean_pool_masked_runs σ _ _ x m); try done.
    - by apply (sum_sequence T B F).
    - by apply (sum_mask T' 1).
    - by apply (unsqueeze_column 1).
    - apply div_by_single_column.
      + split; [done|]. unfold wf. cbn. rewrite length_tabulate. lia.
      + split; [done|]. unfold wf. cbn [as_column summed_mask elems shape].
        by rewrite length_tabulate. }
  split; [done|]. intros b f Hb Hf.
  pose proof (row_major_lt b f B F Hb Hf) as Hbf.
  unfold item. cbn [shape elems ravel summed_sequence as_column summed_mask].
  rewrite Nat.mul_0_l, Nat.add_0_l.
  rewrite !nth_tabulate by lia.
  by rewrite row_major_div, row_major_mod.
Qed.

Lemma mean_pool_single_mask_column_witness :
  ∃ r, result_of (mean_pool (VTuple [VTensor 1; VTensor 2]) column_store) = Some r
       ∧ shape r = [2; 2]
       ∧ ∀ b f, b < 2 → f < 2 →
           item r [b; f]
           = fdiv (sum_of (feature_over_time wide_x 2 b f))
                  (sum_of (mask_over_time column_mask 3 0)).
Proof.
  apply (mean_pool_single_mask_column column_store 1 2 wide_x column_mask
           2 3 2 2);
    reflexivity.
Defined.

(** X16.  A sequence with a single batch element is pooled once per batch
    column of the mask: for a sequence of shape [T; 1; F] and a mask of
    shape [T'; B'] the result has shape [B'; F], and its entry [(b, f)]
    is the sum of the feature of the one batch element over time divided
    by the sum of mask column [b]. *)
Theorem mean_pool_single_batch_element (σ : store) (lx lm : loc)
    (x m : tensor) (T T' B' F : nat) :
  σ !! lx = Some x → σ !! lm = Some m →
  shape x = [T; 1; F] → wf x → shape m = [T'; B'] → wf m →
  ∃ r, result_of (mean_pool (VTuple [VTensor lx; VTensor lm]) σ) = Some r
       ∧ shape r = [B'; F]
       ∧ ∀ b f, b < B' → f < F →
           item r [b; f]
           = fdiv (sum_of (feature_over_time x T 0 f))
                  (sum_of (mask_over_time m T' b)).
Proof.
  intros Hx Hm Hsx Hwx Hsm Hwm. eexists. split.
  { apply yields_new_result.
    eapply (mean_pool_masked_runs σ _ _ x m); try done.
    - by apply (sum_sequence T 1 F).
    - by apply (sum_mask T' B').
    - by apply (unsqueeze_column B').
    - apply div_single_row.
      + split; [done|]. unfold wf. cbn [summed_sequence elems shape].
        rewrite length_tabulate. cbn. lia.
      + split; [done|]. unfold wf. cbn [as_column summed_mask elems shape].
        rewrite length_tabulate. cbn. lia. }
  split; [done|]. intros b f Hb Hf.
  pose proof (row_major_lt b f B' F Hb Hf) as Hbf.
  unfold item. cbn [shape elems ravel summed_sequence as_column summed_mask].
  rewrite Nat.mul_0_l, Nat.add_0_l.
  rewrite nth_tabulate by lia.
  rewrite row_major_div, row_major_mod by done.
  rewrite !nth_tabulate by lia.
  by rewrite Nat.div_small, Nat.mod_small.
Qed.

Lemma mean_pool_single_batch_element_witness :
  ∃ r, result_of (mean_pool (VTuple [VTensor 1; VTensor 2]) lone_store) = Some r
       ∧ shape r = [2; 2]
       ∧ ∀ b f, b < 2 → f < 2 →
           item r [b; f]
           = fdiv (sum_of (feature_over_time lone_x 2 0 f))
                  (sum_of (mask_over_time gap_mask 2 b)).
Proof.
  apply (mean_pool_single_batch_element lone_store 1 2 lone_x gap_mask
           2 2 2 2);
    reflexivity.
Defined.
